(** * packageLoader.py: package collection, category parsers and style inheritance

    Shallow embedding of [src/packageLoader.py].  Python dictionaries whose
    insertion order is observable are ordered association lists; Python
    exceptions are the [Err] branch of a small exception monad that also
    carries the lines written by [print]; Python [while] loops take fuel,
    [None] standing for a loop that has not ended within the fuel. *)

From Stdlib Require Import String Ascii List Bool Arith Lia.
Import ListNotations.
Open Scope string_scope.
Open Scope list_scope.

(** ** Ordered dictionaries with string keys *)

Module ODict.

Definition t (V : Type) := list (string * V).

Fixpoint get {V} (k : string) (d : t V) : option V :=
  match d with
  | [] => None
  | (k', v) :: d' => if String.eqb k k' then Some v else get k d'
  end.

Definition mem {V} (k : string) (d : t V) : bool :=
  match get k d with Some _ => true | None => false end.

(** [d[k] = v]: an existing key keeps its position, a new key goes last. *)
Fixpoint set {V} (k : string) (v : V) (d : t V) : t V :=
  match d with
  | [] => [(k, v)]
  | (k', v') :: d' => if String.eqb k k' then (k', v) :: d' else (k', v') :: set k v d'
  end.

End ODict.

(** ** Python exceptions and the exception monad with a print log *)

Inductive Exn :=
| KeyError (key : string)
| IndexError
| NameError (name : string)
| AttributeError (attr : string)
| TypeError
| IOError (msg : string)
| NoKeyError (key : string).

Inductive result (A : Type) := Ok (a : A) | Err (e : Exn).
Arguments Ok {A} a.
Arguments Err {A} e.

(** A computation reads the lines printed so far and returns its outcome
    with the lines printed after it; a raised exception keeps the lines
    printed before the raise. *)
Definition M (A : Type) := list string -> result A * list string.

Definition ret {A} (a : A) : M A := fun l => (Ok a, l).
Definition raise {A} (e : Exn) : M A := fun l => (Err e, l).
Definition bind {A B} (m : M A) (k : A -> M B) : M B :=
  fun l => match m l with
           | (Ok a, l') => k a l'
           | (Err e, l') => (Err e, l')
           end.
Definition print (s : string) : M unit := fun l => (Ok tt, l ++ [s]).

Notation "x <- m ;; k" := (bind m (fun x => k))
  (at level 61, m at next level, right associativity).
Notation "m ;;; k" := (bind m (fun _ => k))
  (at level 61, right associativity).

(** [for x in xs: body] threading a loop state. *)
Fixpoint for_each {A S} (xs : list A) (s : S) (body : S -> A -> M S) : M S :=
  match xs with
  | [] => ret s
  | x :: xs' => bind (body s x) (fun s' => for_each xs' s' body)
  end.

Definition outcome {A} (m : M A) : result A := fst (m []).

(** The double-quote character, used by the messages of the source. *)
Definition dq : string := String (ascii_of_nat 34) EmptyString.

(** ** Property trees

    Modelled from the spec: the [Property] class of [property_parser.py] is
    not under src/.  The spec describes it as an ordered tree of named nodes
    whose value is a string or a list of child nodes, with "find first child
    by name with default", "find all children by name" and "iterate
    children"; a missing required key raises ([NoKeyError]). *)

#[local] Set Warnings "-register-all".
Inductive Property :=
| PLeaf (name value : string)
| PTree (name : string) (children : list Property).

Inductive PropValue := PVStr (s : string) | PVList (ps : list Property).

Definition pname (p : Property) : string :=
  match p with PLeaf n _ => n | PTree n _ => n end.

(** [prop.value] *)
Definition pvalue (p : Property) : PropValue :=
  match p with PLeaf _ v => PVStr v | PTree _ c => PVList c end.

(** [for x in prop]: the children of a node; a leaf has none. *)
Definition pchildren (p : Property) : list Property :=
  match p with PLeaf _ _ => [] | PTree _ c => c end.

Definition has_children (p : Property) : bool :=
  match p with PLeaf _ _ => false | PTree _ _ => true end.

(** [Property.find_all(props, key)] *)
Definition find_all (ps : list Property) (key : string) : list Property :=
  filter (fun p => String.eqb (pname p) key) ps.

(** [Property.find_key(props, key, default)]: the first match. *)
Definition find_key_opt (ps : list Property) (key : string) : option Property :=
  find (fun p => String.eqb (pname p) key) ps.

(** [Property.find_key(props, key)] without a default. *)
Definition find_key (ps : list Property) (key : string) : M Property :=
  match find_key_opt ps key with Some p => ret p | None => raise (NoKeyError key) end.

(** [node[key, default]] *)
Definition pget_def (node : Property) (key : string) (default : PropValue) : PropValue :=
  match find_key_opt (pchildren node) key with
  | Some p => pvalue p
  | None => default
  end.

(** [node[key]]: a missing key raises. *)
Definition pget (node : Property) (key : string) : M PropValue :=
  p <- find_key (pchildren node) key ;; ret (pvalue p).

(** [node[key, None]] *)
Definition pget_opt (node : Property) (key : string) : option PropValue :=
  option_map pvalue (find_key_opt (pchildren node) key).

(** [v == s] for a property value: a list never equals a string. *)
Definition pv_eqb (v : PropValue) (s : string) : bool :=
  match v with PVStr t => String.eqb t s | PVList _ => false end.

(** A property value used where the code needs a [str] (concatenation,
    [split]); a list value makes that operation raise. *)
Definition as_str (e : Exn) (v : PropValue) : M string :=
  match v with PVStr s => ret s | PVList _ => raise e end.

(** ** Archives

    An opened zip archive: its entry names, and the property tree that
    [Property.parse] produces from an entry.  [zip.open] of a name that is
    not an entry raises [KeyError]. *)

Record Zip := {
  namelist : list string;
  parse_entry : string -> list Property
}.

Definition in_files (path : string) (files : list string) : bool :=
  existsb (String.eqb path) files.

(** [with zip.open(path) as f: Property.parse(f)] *)
Definition zip_parse (z : Zip) (path : string) : M (list Property) :=
  if in_files path (namelist z) then ret (parse_entry z path) else raise (KeyError path).

(** ** Item data *)

(** The per-folder data built by [Item.parse] ([folders[fold] = {...}]). *)
Record FolderData := {
  fd_auth : list string;
  fd_tags : list string;
  fd_desc : list (string * PropValue);
  fd_ent : PropValue;
  fd_url : option PropValue;
  fd_icons : ODict.t PropValue;
  fd_editor : list Property;
  fd_vbsp : option (list Property)
}.

(** The Python values stored in a version's [styles] and [def_style] and in
    the [folders] dictionary of [Item.parse]. *)
Inductive PyVal :=
| VNone
| VBool (b : bool)
| VProp (v : PropValue)
| VFolder (f : FolderData).

(** The [vals] dictionary of one item version. *)
Record Version := {
  v_name : PropValue;
  v_is_beta : bool;
  v_is_dep : bool;
  v_styles : ODict.t PyVal;
  v_def_style : PyVal
}.

Definition set_styles (v : Version) (s : ODict.t PyVal) : Version :=
  {| v_name := v_name v; v_is_beta := v_is_beta v; v_is_dep := v_is_dep v;
     v_styles := s; v_def_style := v_def_style v |}.

Definition set_def_style (v : Version) (d : PyVal) : Version :=
  {| v_name := v_name v; v_is_beta := v_is_beta v; v_is_dep := v_is_dep v;
     v_styles := v_styles v; v_def_style := d |}.

Record Item := {
  item_id : string;
  versions : list Version;
  def_data : PyVal
}.

(** ** Style inheritance ([setup_style_tree]) *)

(** The attributes of a [Style] read by [setup_style_tree]: its id and the
    [base_style] id ([None] when the definition has no base). *)
Record Style := {
  sty_id : string;
  base_style : option string
}.

(** [for style in data['Style']: styles[style.id] = style] *)
Definition style_index (ss : list Style) : ODict.t Style :=
  fold_left (fun d s => ODict.set (sty_id s) s d) ss [].

(** [styles.get(key, None)]; a [None] key is never a key of the index. *)
Definition styles_get (styles : ODict.t Style) (key : option string) : option Style :=
  match key with None => None | Some k => ODict.get k styles end.

(** The [while b_style is not None] loop, with fuel. *)
Fixpoint base_loop (fuel : nat) (styles : ODict.t Style) (b_style : option Style)
    (base : list Style) : option (list Style) :=
  match fuel with
  | 0 => None
  | S fuel' =>
      match b_style with
      | None => Some base
      | Some b => base_loop fuel' styles (styles_get styles (base_style b)) (base ++ [b])
      end
  end.

(** [style.bases]: [base = []; b_style = style; while ...]. *)
Definition style_bases (fuel : nat) (styles : ODict.t Style) (style : Style) : option (list Style) :=
  base_loop fuel styles (Some style) [].

(** [for style in styles.values(): style.bases = base[:]]: the index with each
    style's [bases] attribute; [None] when some loop did not end. *)
Fixpoint with_bases (fuel : nat) (styles : ODict.t Style) (vs : ODict.t Style)
    : option (ODict.t (Style * list Style)) :=
  match vs with
  | [] => Some []
  | (k, s) :: vs' =>
      match style_bases fuel styles s with
      | None => None
      | Some bs => option_map (cons (k, (s, bs))) (with_bases fuel styles vs')
      end
  end.

(** [for base_style in style.bases: if base_style.id in vers['styles']: ... break];
    [None] is the [else] branch of the [for]. *)
Fixpoint scan_bases (bases : list Style) (m : ODict.t PyVal) : option PyVal :=
  match bases with
  | [] => None
  | b :: bs =>
      match ODict.get (sty_id b) m with
      | Some d => Some d
      | None => scan_bases bs m
      end
  end.

(** The value stored for a missing style: the one found by the [for], or
    [vers['def_style']] in its [else] branch. *)
Definition opt_default {A} (o : option A) (d : A) : A :=
  match o with Some x => x | None => d end.

(** One iteration of [for id, style in styles.items()] on one version. *)
Definition resolve_style (vers : Version) (e : string * (Style * list Style)) : Version :=
  let '(id, (_, bases)) := e in
  if ODict.mem id (v_styles vers) then vers
  else match scan_bases bases (v_styles vers) with
       | Some d => set_styles vers (ODict.set id d (v_styles vers))
       | None => set_styles vers (ODict.set id (v_def_style vers) (v_styles vers))
       end.

Definition resolve_version (idx : ODict.t (Style * list Style)) (vers : Version) : Version :=
  fold_left resolve_style idx vers.

Definition resolve_item (idx : ODict.t (Style * list Style)) (it : Item) : Item :=
  {| item_id := item_id it; versions := map (resolve_version idx) (versions it);
     def_data := def_data it |}.

(** [setup_style_tree(data)] on [data['Style']] and [data['Item']]: the style
    index with the [bases] of every style, and the items after resolution. *)
Definition setup_style_tree (fuel : nat) (data_Style : list Style) (data_Item : list Item)
    : option (ODict.t (Style * list Style) * list Item) :=
  let styles := style_index data_Style in
  match with_bases fuel styles styles with
  | None => None
  | Some idx => Some (idx, map (resolve_item idx) data_Item)
  end.

(** Proof predicates for [setup_style_tree]. *)

(** The [while] loop has ended with [r] from [b_style = b] and [base = []]. *)
Definition walk_res (st : ODict.t Style) (b : option Style) (r : list Style) : Prop :=
  exists f, base_loop f st b [] = Some r.

(** During [for id, style in styles.items()] on a version whose mapping was
    [m0] and whose [def_style] is [def]: the current mapping [m] agrees with
    [m0] on [m0]'s keys, and every key added holds the value resolved
    against [m0]. *)
Definition resolve_inv (ss : list Style) (m0 : ODict.t PyVal) (def : PyVal)
    (m : ODict.t PyVal) : Prop :=
  (forall k x, ODict.get k m0 = Some x -> ODict.get k m = Some x) /\
  (forall k x, ODict.get k m = Some x -> ODict.get k m0 = None ->
     exists s bs, ODict.get k (style_index ss) = Some s /\
                  walk_res (style_index ss) (Some s) bs /\
                  x = opt_default (scan_bases bs m0) def).

(** ** Definition collection ([loadAll] and [parse_package]) *)

Inductive Category := CStyle | CItem | CQuotePack | CSkybox | CGoo | CMusic | CStyleVar.

Definition cat_eqb (a b : Category) : bool :=
  match a, b with
  | CStyle, CStyle | CItem, CItem | CQuotePack, CQuotePack | CSkybox, CSkybox
  | CGoo, CGoo | CMusic, CMusic | CStyleVar, CStyleVar => true
  | _, _ => false
  end.

Definition cat_name (c : Category) : string :=
  match c with
  | CStyle => "Style" | CItem => "Item" | CQuotePack => "QuotePack" | CSkybox => "Skybox"
  | CGoo => "Goo" | CMusic => "Music" | CStyleVar => "StyleVar"
  end.

(** The keys of [obj_types], in the order of the literal. *)
Definition obj_types : list Category :=
  [CStyle; CItem; CQuotePack; CSkybox; CGoo; CMusic; CStyleVar].

(** [packages[id] = (id, zip, info, name, dispName)] *)
Record Package := {
  pk_id : string;
  pk_zip : Zip;
  pk_info : list Property;
  pk_name : string;
  pk_disp : string
}.

(** [obj[comp_type][id] = (zip, object, pak_id, dispName)] *)
Record ObjEntry := {
  oe_zip : Zip;
  oe_node : Property;
  oe_pak_id : string;
  oe_disp : string
}.

(** The value held in [obj_override[comp_type]]: the dictionary made by
    [loadAll], or the list that [parse_package] stores in its place. *)
Inductive OverVal :=
| OvDict (d : ODict.t (list (Zip * Property)))
| OvList (l : list (Zip * Property)).

(** [id in obj_override[comp_type]]: a string is never an element of a list
    of pairs. *)
Definition ov_contains (id : string) (ov : OverVal) : bool :=
  match ov with OvDict d => ODict.mem id d | OvList _ => false end.

(** [obj_override[comp_type].append(x)]: a dict has no [append]. *)
Definition ov_append (ov : OverVal) (x : Zip * Property) : M OverVal :=
  match ov with
  | OvDict _ => raise (AttributeError "append")
  | OvList l => ret (OvList (l ++ [x]))
  end.

(** The module globals [obj] and [obj_override]. *)
Record Loader := {
  obj : Category -> ODict.t ObjEntry;
  obj_override : Category -> OverVal
}.

Definition set_obj (ld : Loader) (c : Category) (d : ODict.t ObjEntry) : Loader :=
  {| obj := fun c' => if cat_eqb c' c then d else obj ld c';
     obj_override := obj_override ld |}.

Definition set_override (ld : Loader) (c : Category) (ov : OverVal) : Loader :=
  {| obj := obj ld;
     obj_override := fun c' => if cat_eqb c' c then ov else obj_override ld c' |}.

(** [for type in obj_types: obj[type] = {}; obj_override[type] = {}] *)
Definition init_loader : Loader :=
  {| obj := fun _ => []; obj_override := fun _ => OvDict [] |}.

(** The body of [for object in Property.find_all(info, comp_type)]; the
    state is the loader and the [objects] counter.  A list-valued [id] is
    unhashable: [id in obj[comp_type]] raises [TypeError]. *)
Definition collect_one (zip : Zip) (pak_id dispName : string) (st : Loader * nat)
    (comp_type : Category) (object : Property) : M (Loader * nat) :=
  let '(ld, objects) := st in
  let objects := S objects in
  idv <- pget object "id" ;;
  id <- as_str TypeError idv ;;
  let is_sub := pv_eqb (pget_def object "overrideOrig" (PVStr "0")) "1" in
  if ODict.mem id (obj ld comp_type) then
    if is_sub then
      if ov_contains id (obj_override ld comp_type) then
        ov <- ov_append (obj_override ld comp_type) (zip, object) ;;
        ret (set_override ld comp_type ov, objects)
      else
        ret (set_override ld comp_type (OvList [(zip, object)]), objects)
    else
      print ("ERROR! " ++ dq ++ id ++ dq ++ " defined twice!")%string ;;;
      ret (ld, objects)
  else
    ret (set_obj ld comp_type
           (ODict.set id {| oe_zip := zip; oe_node := object; oe_pak_id := pak_id;
                            oe_disp := dispName |} (obj ld comp_type)), objects).

(** [for pre in ...: if pre.value not in packages: ...; return False] *)
Fixpoint prereqs_loop (packages : ODict.t Package) (pak_id : string) (pres : list Property)
    : M bool :=
  match pres with
  | [] => ret true
  | pre :: rest =>
      v <- as_str TypeError (pvalue pre) ;;
      if ODict.mem v packages then prereqs_loop packages pak_id rest
      else print ("Package " ++ dq ++ v ++ dq ++ " required for " ++ dq ++ pak_id ++ dq
                  ++ " - ignoring package!")%string ;;;
           ret false
  end.

(** [Property.find_key(info, 'Prerequisites', []).value]: absent means no
    prerequisite (spec: "defaults to empty"); iterating a non-empty string
    value yields characters, which have no [.value]. *)
Definition check_prereqs (packages : ODict.t Package) (pak_id : string) (info : list Property)
    : M bool :=
  match find_key_opt info "Prerequisites" with
  | None => ret true
  | Some p =>
      match pvalue p with
      | PVList pres => prereqs_loop packages pak_id pres
      | PVStr EmptyString => ret true
      | PVStr _ => raise (AttributeError "value")
      end
  end.

(** [parse_package(zip, info, filename, pak_id, dispName)]; [return False]
    is the count 0 (it is only added to the [objects] total). *)
Definition parse_package (packages : ODict.t Package) (ld : Loader) (zip : Zip)
    (info : list Property) (filename pak_id dispName : string) : M (Loader * nat) :=
  ok <- check_prereqs packages pak_id info ;;
  if ok then
    for_each obj_types (ld, 0) (fun st comp_type =>
      for_each (find_all info (cat_name comp_type)) st (fun st object =>
        collect_one zip pak_id dispName st comp_type object))
  else ret (ld, 0).

(** The collection loop of [loadAll]:
    [for id, zip, info, name, dispName in packages.values(): ...].  It sits in
    a [try] with only a [finally], so an exception leaves [loadAll]. *)
Definition collect_all (packages : ODict.t Package) (ld : Loader) : M (Loader * nat) :=
  for_each (map snd packages) (ld, 0) (fun st p =>
    let '(ld, objects) := st in
    print ("Scanning package '" ++ pk_id p ++ "'")%string ;;;
    r <- parse_package packages ld (pk_zip p) (pk_info p) (pk_name p) (pk_id p) (pk_disp p) ;;
    let '(ld', new_objs) := r in
    print "Done!" ;;;
    ret (ld', objects + new_objs)).

(** ** String helpers: [sep_values], [desc_parse], [get_selitem_data] *)

(** [s.split(d)] for a one-character separator. *)
Fixpoint split_on (d : ascii) (s : string) : list string :=
  match s with
  | EmptyString => [EmptyString]
  | String c s' =>
      let rest := split_on d s' in
      if Ascii.eqb c d then EmptyString :: rest
      else match rest with
           | r :: rs => String c r :: rs
           | [] => [String c EmptyString]
           end
  end.

(** The ASCII characters for which [str.isspace] holds. *)
Definition is_space (c : ascii) : bool :=
  let n := nat_of_ascii c in
  ((Nat.leb 9 n) && (Nat.leb n 13)) || ((Nat.leb 28 n) && (Nat.leb n 32)).

Fixpoint lstrip (s : string) : string :=
  match s with
  | EmptyString => EmptyString
  | String c s' => if is_space c then lstrip s' else s
  end.

Fixpoint rstrip (s : string) : string :=
  match s with
  | EmptyString => EmptyString
  | String c s' =>
      let r := rstrip s' in
      match r with
      | EmptyString => if is_space c then EmptyString else String c EmptyString
      | _ => String c r
      end
  end.

(** [val.strip()] *)
Definition strip (s : string) : string := rstrip (lstrip s).

Definition nonempty (s : string) : bool :=
  match s with EmptyString => false | _ => true end.

(** [sep_values(str, delimiter)] *)
Definition sep_values (str : string) (delimiter : ascii) : list string :=
  filter nonempty (map strip (split_on delimiter str)).

(** [name.casefold()] on ASCII text: lower-casing of the letters. *)
Definition casefold (s : string) : string :=
  string_of_list_ascii
    (map (fun c => let n := nat_of_ascii c in
                   if (Nat.leb 65 n) && (Nat.leb n 90) then ascii_of_nat (n + 32) else c)
         (list_ascii_of_string s)).

(** [list(desc_parse(info))] *)
Definition desc_parse (info : Property) : list (string * PropValue) :=
  flat_map (fun prop =>
              if has_children prop
              then map (fun line => (casefold (pname line), pvalue line)) (pchildren prop)
              else [("line"%string, pvalue prop)])
           (find_all (pchildren info) "description").

Record SelItem := {
  si_name : PropValue;
  si_short_name : option PropValue;
  si_auth : list string;
  si_icon : PropValue;
  si_desc : list (string * PropValue)
}.

(** [get_selitem_data(info)]; [str.split] on a list value raises. *)
Definition get_selitem_data (info : Property) : M SelItem :=
  authors <- as_str (AttributeError "split") (pget_def info "authors" (PVStr "")) ;;
  let auth := sep_values authors "," in
  let desc := desc_parse info in
  let short_name := pget_opt info "shortName" in
  name <- pget info "name" ;;
  let icon := pget_def info "icon" (PVStr "_blank") in
  ret {| si_name := name; si_short_name := short_name; si_auth := auth;
         si_icon := icon; si_desc := desc |}.

(** [name if short_name is None else short_name] *)
Definition short_or (name : PropValue) (short_name : option PropValue) : PropValue :=
  match short_name with None => name | Some s => s end.

(** ** [Item.parse] *)

(** [folders[sty.value] = True]; a list value is unhashable. *)
Definition folders_mark (folders : ODict.t PyVal) (v : PropValue) : M (ODict.t PyVal) :=
  match v with
  | PVStr s => ret (ODict.set s (VBool true) folders)
  | PVList _ => raise TypeError
  end.

(** [for sty in sty_list: ...] on the pair ([vals], [folders]). *)
Definition version_style (st : Version * ODict.t PyVal) (sty : Property)
    : M (Version * ODict.t PyVal) :=
  let '(vals, folders) := st in
  let vals := match v_def_style vals with
              | VNone => set_def_style vals (VProp (pvalue sty))
              | _ => vals
              end in
  let vals := set_styles vals (ODict.set (pname sty) (VProp (pvalue sty)) (v_styles vals)) in
  folders <- folders_mark folders (pvalue sty) ;;
  ret (vals, folders).

(** One iteration of [for ver in info.find_all("version")]. *)
Definition parse_version (st : list Version * ODict.t PyVal) (ver : Property)
    : M (list Version * ODict.t PyVal) :=
  let '(versions, folders) := st in
  let vals := {| v_name := pget_def ver "name" (PVStr "");
                 v_is_beta := pv_eqb (pget_def ver "beta" (PVStr "0")) "1";
                 v_is_dep := pv_eqb (pget_def ver "deprecated" (PVStr "0")) "1";
                 v_styles := [];
                 v_def_style := VNone |} in
  r <- for_each (find_all (pchildren ver) "styles") (vals, folders) (fun st sty_list =>
         for_each (pchildren sty_list) st version_style) ;;
  let '(vals, folders) := r in
  ret (versions ++ [vals], folders).

Definition py_bool (b : bool) : string := if b then "True" else "False".

(** [{p.name: p.value for p in props['icon', []]}]; iterating a string value
    yields characters, which have no [.name]. *)
Definition icon_dict (v : PropValue) : M (ODict.t PropValue) :=
  match v with
  | PVList ps => ret (fold_left (fun d p => ODict.set (pname p) (pvalue p) d) ps [])
  | PVStr EmptyString => ret []
  | PVStr _ => raise (AttributeError "name")
  end.

(** The body of [for fold in folders]: the data of one item folder. *)
Definition load_folder (zip : Zip) (fold : string) : M FolderData :=
  let files := namelist zip in
  let props := ("items/" ++ fold ++ "/properties.txt")%string in
  let editor := ("items/" ++ fold ++ "/editoritems.txt")%string in
  let config := ("items/" ++ fold ++ "/vbsp_config.cfg")%string in
  if in_files props files && in_files editor files then
    props <- find_key (parse_entry zip props) "Properties" ;;
    let editor := parse_entry zip editor in
    authors <- as_str (AttributeError "split") (pget_def props "authors" (PVStr "")) ;;
    tags <- as_str (AttributeError "split") (pget_def props "tags" (PVStr "")) ;;
    icons <- icon_dict (pget_def props "icon" (PVList [])) ;;
    ret {| fd_auth := sep_values authors ",";
           fd_tags := sep_values tags ";";
           fd_desc := desc_parse props;
           fd_ent := pget_def props "ent_count" (PVStr "??");
           fd_url := pget_opt props "infoURL";
           fd_icons := icons;
           fd_editor := find_all editor "Item";
           fd_vbsp := if in_files config files then Some (parse_entry zip config) else None |}
  else
    raise (IOError (dq ++ "items/" ++ fold ++ dq ++ " not valid! Folder likely missing! (Editor="
                    ++ py_bool (in_files editor files) ++ ", Props="
                    ++ py_bool (in_files props files) ++ ")")%string).

(** [for fold in folders: ... folders[fold] = {...}] *)
Definition load_folders (zip : Zip) (folders : ODict.t PyVal) : M (ODict.t PyVal) :=
  for_each (map fst folders) folders (fun folders fold =>
    d <- load_folder zip fold ;;
    ret (ODict.set fold (VFolder d) folders)).

(** [key in folders] for a value of a version; unhashable values raise. *)
Definition in_folders (k : PyVal) (folders : ODict.t PyVal) : M bool :=
  match k with
  | VNone | VBool _ => ret false
  | VProp (PVStr s) => ret (ODict.mem s folders)
  | VProp (PVList _) | VFolder _ => raise TypeError
  end.

(** [folders[key]] *)
Definition folders_get (k : PyVal) (folders : ODict.t PyVal) : M PyVal :=
  match k with
  | VNone => raise (KeyError "None")
  | VBool b => raise (KeyError (py_bool b))
  | VProp (PVStr s) =>
      match ODict.get s folders with Some v => ret v | None => raise (KeyError s) end
  | VProp (PVList _) | VFolder _ => raise TypeError
  end.

(** [l[i] = x] for an index in range. *)
Fixpoint list_set {A} (i : nat) (x : A) (l : list A) : list A :=
  match l, i with
  | [], _ => []
  | _ :: l', 0 => x :: l'
  | y :: l', S i' => y :: list_set i' x l'
  end.

Definition dummy_version : Version :=
  {| v_name := PVStr ""; v_is_beta := false; v_is_dep := false; v_styles := []; v_def_style := VNone |}.

(** One iteration of [for ver in versions] on the [i]-th version.  The name
    [vals] still denotes the dictionary of the last version parsed, that is
    the last element of [versions], read as it is at this iteration. *)
Definition rewrite_version (folders : ODict.t PyVal) (vs : list Version) (i : nat)
    : M (list Version) :=
  let ver := nth i vs dummy_version in
  let vals := last vs dummy_version in
  b <- in_folders (v_def_style ver) folders ;;
  ver <- (if b then d <- folders_get (v_def_style vals) folders ;; ret (set_def_style ver d)
          else ret ver) ;;
  styles <- for_each (v_styles ver) (v_styles ver) (fun styles e =>
              let '(sty, fold) := e in
              f <- folders_get fold folders ;;
              ret (ODict.set sty f styles)) ;;
  ret (list_set i (set_styles ver styles) vs).

(** [Item.__init__(id, versions)]: [versions[0]] raises on an empty list. *)
Definition Item_init (id : string) (vs : list Version) : M Item :=
  match vs with
  | [] => raise IndexError
  | v :: _ => ret {| item_id := id; versions := vs; def_data := v_def_style v |}
  end.

(** [Item.parse(zip, id, info)] *)
Definition Item_parse (zip : Zip) (id : string) (info : Property) : M Item :=
  r <- for_each (find_all (pchildren info) "version") ([], []) parse_version ;;
  let '(vs, folders) := r in
  folders <- load_folders zip folders ;;
  vs <- for_each (seq 0 (length vs)) vs (rewrite_version folders) ;;
  Item_init id vs.

(** ** [Voice], [Skybox], [Goo], [Music] and [StyleVar] *)

Record Voice := {
  vo_id : string;
  vo_name : PropValue;
  vo_icon : PropValue;
  vo_short_name : PropValue;
  vo_desc : list (string * PropValue);
  vo_auth : list string;
  vo_config : list Property
}.

(** [Voice.parse(zip, id, info)] *)
Definition Voice_parse (zip : Zip) (id : string) (info : Property) : M Voice :=
  si <- get_selitem_data info ;;
  fv <- pget info "file" ;;
  file <- as_str TypeError fv ;;
  let path := ("voice/" ++ file ++ ".voice")%string in
  config <- zip_parse zip path ;;
  ret {| vo_id := id; vo_name := si_name si; vo_icon := si_icon si;
         vo_short_name := short_or (si_name si) (si_short_name si);
         vo_desc := si_desc si; vo_auth := si_auth si; vo_config := config |}.

Record Skybox := {
  sk_id : string;
  sk_short_name : PropValue;
  sk_name : PropValue;
  sk_icon : PropValue;
  sk_material : PropValue;
  sk_config : list Property;
  sk_auth : list string;
  sk_desc : list (string * PropValue)
}.

(** [Skybox.parse(zip, id, info)]: the path tested is built from the name,
    and the entry opened is [name] itself. *)
Definition Skybox_parse (zip : Zip) (id : string) (info : Property) : M Skybox :=
  let config_dir := pget_def info "config" (PVStr "") in
  si <- get_selitem_data info ;;
  let mat := pget_def info "material" (PVStr "sky_black") in
  config <- (if pv_eqb config_dir "" then ret []
             else name <- as_str TypeError (si_name si) ;;
                  let path := ("skybox/" ++ name ++ ".cfg")%string in
                  if in_files path (namelist zip) then zip_parse zip name
                  else print (name ++ ".cfg not in zip!")%string ;;; ret []) ;;
  ret {| sk_id := id; sk_short_name := short_or (si_name si) (si_short_name si);
         sk_name := si_name si; sk_icon := si_icon si; sk_material := mat;
         sk_config := config; sk_auth := si_auth si; sk_desc := si_desc si |}.

(** [Skybox.add_over]: its body reads the unbound name [sky]. *)
Definition Skybox_add_over (self override : Skybox) (zip : Zip) : M Skybox :=
  raise (NameError "sky").

Record Goo := {
  go_id : string;
  go_short_name : PropValue;
  go_name : PropValue;
  go_icon : PropValue;
  go_material : PropValue;
  go_cheap_material : PropValue;
  go_auth : list string;
  go_desc : list (string * PropValue);
  go_config : list Property
}.

(** [Goo.parse(zip, id, info)]; [config or []] is [config] for a list. *)
Definition Goo_parse (zip : Zip) (id : string) (info : Property) : M Goo :=
  si <- get_selitem_data info ;;
  let mat := pget_def info "material" (PVStr "nature/toxicslime_a2_bridge_intro") in
  let mat_cheap := pget_def info "material_cheap" mat in
  c <- as_str TypeError (pget_def info "config" (PVStr "")) ;;
  let config_dir := ("goo/" ++ c)%string in
  config <- (if in_files config_dir (namelist zip) then zip_parse zip config_dir else ret []) ;;
  ret {| go_id := id; go_short_name := short_or (si_name si) (si_short_name si);
         go_name := si_name si; go_icon := si_icon si; go_material := mat;
         go_cheap_material := mat_cheap; go_auth := si_auth si; go_desc := si_desc si;
         go_config := config |}.

(** [Goo.add_over]: [self.config.extend(override.config)],
    [self.auth.extend(override.auth)]. *)
Definition Goo_add_over (self override : Goo) (zip : Zip) : M Goo :=
  ret {| go_id := go_id self; go_short_name := go_short_name self; go_name := go_name self;
         go_icon := go_icon self; go_material := go_material self;
         go_cheap_material := go_cheap_material self;
         go_auth := go_auth self ++ go_auth override; go_desc := go_desc self;
         go_config := go_config self ++ go_config override |}.

Record Music := {
  mu_id : string;
  mu_short_name : PropValue;
  mu_name : PropValue;
  mu_icon : PropValue;
  mu_inst : PropValue;
  mu_auth : list string;
  mu_desc : list (string * PropValue);
  mu_config : list Property
}.

(** [Music.parse(zip, id, info)] *)
Definition Music_parse (zip : Zip) (id : string) (info : Property) : M Music :=
  si <- get_selitem_data info ;;
  inst <- pget info "instance" ;;
  c <- as_str TypeError (pget_def info "config" (PVStr "")) ;;
  let config_dir := ("music/" ++ c)%string in
  config <- (if in_files config_dir (namelist zip) then zip_parse zip config_dir else ret []) ;;
  ret {| mu_id := id; mu_short_name := short_or (si_name si) (si_short_name si);
         mu_name := si_name si; mu_icon := si_icon si; mu_inst := inst;
         mu_auth := si_auth si; mu_desc := si_desc si; mu_config := config |}.

(** [Music.add_over] *)
Definition Music_add_over (self override : Music) (zip : Zip) : M Music :=
  ret {| mu_id := mu_id self; mu_short_name := mu_short_name self; mu_name := mu_name self;
         mu_icon := mu_icon self; mu_inst := mu_inst self;
         mu_auth := mu_auth self ++ mu_auth override; mu_desc := mu_desc self;
         mu_config := mu_config self ++ mu_config override |}.

Record StyleVar := {
  sv_id : string;
  sv_name : PropValue;
  sv_styles : list PropValue;
  sv_default : bool
}.

(** [StyleVar.add_over]: [self.styles.extend(override.styles)]. *)
Definition StyleVar_add_over (self override : StyleVar) (zip : Zip) : M StyleVar :=
  ret {| sv_id := sv_id self; sv_name := sv_name self;
         sv_styles := sv_styles self ++ sv_styles override; sv_default := sv_default self |}.

(** [StyleVar.parse(zip, id, info)] *)
Definition StyleVar_parse (zip : Zip) (id : string) (info : Property) : M StyleVar :=
  name <- pget info "name" ;;
  let styles := map pvalue (find_all (pchildren info) "Style") in
  let default := pv_eqb (pget_def info "enabled" (PVStr "0")) "1" in
  ret {| sv_id := id; sv_name := name; sv_styles := styles; sv_default := default |}.

(** ** [Style.parse] *)

(** A [Style] object as [Style.__init__] builds it (the record [Style] above
    keeps only the two attributes read by [setup_style_tree]). *)
Record StyleDef := {
  sd_id : string;
  sd_auth : list string;
  sd_name : PropValue;
  sd_desc : list (string * PropValue);
  sd_icon : PropValue;
  sd_short_name : PropValue;
  sd_editor : list Property;
  sd_base_style : option PropValue;
  sd_suggested : PropValue * PropValue * PropValue * PropValue;
  sd_config : Property
}.

(** [info.find_key('suggested', [])]: the first [suggested] child, or an
    empty block. *)
Definition find_key_def (info : Property) (key : string) : Property :=
  match find_key_opt (pchildren info) key with Some p => p | None => PTree key [] end.

(** [Style.parse(zip, id, info)] followed by [Style.__init__]: the [items]
    tree is the [editor] argument and the parsed [vbsp_config.cfg] the
    [config] argument, wrapped in an [ItemData] block. *)
Definition Style_parse (zip : Zip) (id : string) (info : Property) : M StyleDef :=
  si <- get_selitem_data info ;;
  let base := pget_def info "base" (PVStr "NONE") in
  let sugg := find_key_def info "suggested" in
  let sugg := (pget_def sugg "quote" (PVStr ""), pget_def sugg "music" (PVStr ""),
               pget_def sugg "skybox" (PVStr ""), pget_def sugg "goo" (PVStr "")) in
  let short_name := match si_short_name si with
                    | Some v => if pv_eqb v "" then None else Some v
                    | None => None
                    end in
  let base := if pv_eqb base "NONE" then None else Some base in
  let files := namelist zip in
  fv <- pget info "folder" ;;
  f <- as_str TypeError fv ;;
  let folder := ("styles/" ++ f)%string in
  let config := (folder ++ "/vbsp_config.cfg")%string in
  items <- zip_parse zip (folder ++ "/items.txt")%string ;;
  let vbsp := if in_files config files then Some (parse_entry zip config) else None in
  ret {| sd_id := id; sd_auth := si_auth si; sd_name := si_name si; sd_desc := si_desc si;
         sd_icon := si_icon si; sd_short_name := short_or (si_name si) short_name;
         sd_editor := items; sd_base_style := base; sd_suggested := sugg;
         sd_config := PTree "ItemData" (opt_default vbsp []) |}.

(** [Style.add_over], [Item.add_over] and [Voice.add_over]: [pass]. *)
Definition Style_add_over (self override : StyleDef) (zip : Zip) : M StyleDef := ret self.
Definition Item_add_over (self override : Item) (zip : Zip) : M Item := ret self.
Definition Voice_add_over (self override : Voice) (zip : Zip) : M Voice := ret self.

(** ** The object phase of [loadAll] *)

(** An object built by [obj_types[type].parse]. *)
Inductive Obj :=
| OStyle (s : StyleDef)
| OItem (i : Item)
| OVoice (v : Voice)
| OSkybox (s : Skybox)
| OGoo (g : Goo)
| OMusic (m : Music)
| OStyleVar (s : StyleVar).

(** [obj_types[type].parse(zip, id, info)] *)
Definition parse_obj (c : Category) (zip : Zip) (id : string) (info : Property) : M Obj :=
  match c with
  | CStyle => s <- Style_parse zip id info ;; ret (OStyle s)
  | CItem => i <- Item_parse zip id info ;; ret (OItem i)
  | CQuotePack => v <- Voice_parse zip id info ;; ret (OVoice v)
  | CSkybox => s <- Skybox_parse zip id info ;; ret (OSkybox s)
  | CGoo => g <- Goo_parse zip id info ;; ret (OGoo g)
  | CMusic => m <- Music_parse zip id info ;; ret (OMusic m)
  | CStyleVar => s <- StyleVar_parse zip id info ;; ret (OStyleVar s)
  end.

(** An object with the attributes [pak_id] and [pak_name] set by [loadAll]. *)
Record Loaded := {
  lo_obj : Obj;
  lo_pak_id : string;
  lo_pak_name : string
}.

(** [over = obj_override[type].get(id, [])]: a list has no [get]. *)
Definition ov_get (ov : OverVal) : M unit :=
  match ov with OvDict _ => ret tt | OvList _ => raise (AttributeError "get") end.

(** [if id in obj_override[type]: for over, zip in obj_override[type][id]: ...
    over[0] ...]: each stored pair is unpacked into [over] (the archive) and
    [zip] (the node), and subscripting the archive raises; a string is never
    an element of a list of pairs. *)
Definition apply_overrides (ov : OverVal) (id : string) : M unit :=
  match ov with
  | OvDict d => match ODict.get id d with Some (_ :: _) => raise TypeError | _ => ret tt end
  | OvList _ => ret tt
  end.

(** The body of [for id, obj_data in objs.items()] for category [c]; the
    state is [data[type]]. *)
Definition load_object (ld : Loader) (c : Category) (acc : list Loaded)
    (e : string * ObjEntry) : M (list Loaded) :=
  let '(id, od) := e in
  print ("Loading " ++ cat_name c ++ " " ++ dq ++ id ++ dq ++ "!")%string ;;;
  ov_get (obj_override ld c) ;;;
  object <- parse_obj c (oe_zip od) id (oe_node od) ;;
  apply_overrides (obj_override ld c) id ;;;
  ret (acc ++ [{| lo_obj := object; lo_pak_id := oe_pak_id od; lo_pak_name := oe_disp od |}]).

(** [for type, objs in obj.items(): ...]: the keys of [obj] were inserted in
    the order of [obj_types]; the result pairs each category with its
    [data[type]] list. *)
Definition load_objects (ld : Loader) : M (list (Category * list Loaded)) :=
  for_each obj_types [] (fun data c =>
    objs <- for_each (obj ld c) [] (load_object ld c) ;;
    ret (data ++ [(c, objs)])).

(** ** [loadAll]: package registration and resource extraction *)

(** [os.listdir(dir)]: a directory, or a file with the archive that
    [ZipFile(name)] opens when its name ends with [.zip]. *)
Inductive DirEntry :=
| DEDir (name : string)
| DEFile (name : string) (zip : Zip).

Definition de_name (e : DirEntry) : string :=
  match e with DEDir n => n | DEFile n _ => n end.

(** [s.endswith(suf)] *)
Definition ends_with (suf s : string) : bool :=
  Nat.leb (String.length suf) (String.length s) &&
  String.eqb (substring (String.length s - String.length suf) (String.length suf) s) suf.

(** [os.path.join(d, n)] for a relative [n]. *)
Definition os_join (d n : string) : string :=
  if ends_with "/" d then (d ++ n)%string else (d ++ "/" ++ n)%string.

(** [packages[id] = (id, zip, info, name, dispName)]; [dispName] is the
    value of the [Name] key, a block if [Name] is one. *)
Record RegEntry := {
  re_id : string;
  re_zip : Zip;
  re_info : list Property;
  re_name : string;
  re_disp : PropValue
}.

(** The body of [for name in contents] in [loadAll], on the pair
    ([zips], [packages]).  A list-valued [ID] is unhashable. *)
Definition register_one (dir : string) (st : list Zip * ODict.t RegEntry) (e : DirEntry)
    : M (list Zip * ODict.t RegEntry) :=
  let '(zips, packages) := st in
  print ("Reading package file '" ++ de_name e ++ "'")%string ;;;
  let name := os_join dir (de_name e) in
  match e with
  | DEFile _ zip =>
      if ends_with ".zip" name then
        let zips := zips ++ [zip] in
        if in_files "info.txt" (namelist zip) then
          let info := parse_entry zip "info.txt" in
          idp <- find_key info "ID" ;;
          let dispName := match find_key_opt info "Name" with
                          | Some p => pvalue p
                          | None => pvalue idp
                          end in
          id <- as_str TypeError (pvalue idp) ;;
          ret (zips, ODict.set id {| re_id := id; re_zip := zip; re_info := info;
                                     re_name := name; re_disp := dispName |} packages)
        else
          print ("ERROR: Bad package'" ++ name ++ "'!")%string ;;;
          ret (zips, packages)
      else ret (zips, packages)
  | DEDir _ => ret (zips, packages)
  end.

(** The registration loop of [loadAll]. *)
Definition register_all (dir : string) (contents : list DirEntry)
    : M (list Zip * ODict.t RegEntry) :=
  for_each contents ([], []) (register_one dir).

(** The archive that the loop keeps in [zips] for an entry. *)
Definition zip_entry (dir : string) (e : DirEntry) : list Zip :=
  match e with
  | DEFile n z => if ends_with ".zip" (os_join dir n) then [z] else []
  | DEDir _ => []
  end.

(** The package that the loop registers for an entry. *)
Definition reg_entry (dir : string) (e : DirEntry) : option RegEntry :=
  match e with
  | DEFile n z =>
      let name := os_join dir n in
      let info := parse_entry z "info.txt" in
      if ends_with ".zip" name && in_files "info.txt" (namelist z) then
        match find_key_opt info "ID" with
        | Some p =>
            match pvalue p with
            | PVStr id =>
                Some {| re_id := id; re_zip := z; re_info := info; re_name := name;
                        re_disp := match find_key_opt info "Name" with
                                   | Some q => pvalue q
                                   | None => PVStr id
                                   end |}
            | PVList _ => None
            end
        | None => None
        end
      else None
  | DEDir _ => None
  end.

(** An archive with an [info.txt] whose [ID] is missing or a block. *)
Definition reg_bad (dir : string) (e : DirEntry) : bool :=
  match e with
  | DEFile n z =>
      ends_with ".zip" (os_join dir n) && in_files "info.txt" (namelist z) &&
      match find_key_opt (parse_entry z "info.txt") "ID" with
      | Some p => match pvalue p with PVStr _ => false | PVList _ => true end
      | None => true
      end
  | DEDir _ => false
  end.

(** The platform whose [os.path] module [loadAll] runs with. *)
Inductive Platform := Posix | Windows.

(** [str.lower] on one ASCII character. *)
Definition lower_char (c : ascii) : ascii :=
  let n := nat_of_ascii c in
  if (Nat.leb 65 n) && (Nat.leb n 90) then ascii_of_nat (n + 32) else c.

(** [ntpath.normcase]: [s.replace('/', '\\').lower()]. *)
Fixpoint nt_normcase (s : string) : string :=
  match s with
  | EmptyString => EmptyString
  | String c t =>
      String (if ascii_dec c "/"%char then "\"%char else lower_char c) (nt_normcase t)
  end.

(** [os.path.normcase]: the identity for [posixpath], [ntpath.normcase] on Windows. *)
Definition normcase (pf : Platform) (s : string) : string :=
  match pf with Posix => s | Windows => nt_normcase s end.

(** A path under one of the two folders that [loadAll] extracts. *)
Definition res_path (pf : Platform) (path : string) : bool :=
  String.prefix (normcase pf "resources/BEE2/") (normcase pf path) ||
  String.prefix (normcase pf "resources/instances/") (normcase pf path).

(** The body of [for path in zip_contents]: the [zip.extract] calls it makes. *)
Definition extract_one (pf : Platform) (zip : Zip) (path : string) : list (Zip * string) :=
  let loc := normcase pf path in
  (if String.prefix (normcase pf "resources/BEE2/") loc then [(zip, path)] else []) ++
  (if String.prefix (normcase pf "resources/instances/") loc then [(zip, path)] else []).

(** The resource extraction of [loadAll] when [load_res] is true: the
    sequence of [zip.extract(path, path="cache/")] calls. *)
Definition extract_resources (pf : Platform) (zips : list Zip) : M (list (Zip * string)) :=
  print "Extracting Resources..." ;;;
  let files := map (fun z => (z, namelist z)) zips in
  ret (flat_map (fun '(z, names) => flat_map (extract_one pf z) names) files).

(** ** Predicates of the further proofs *)

(** The record [(zip, object, pak_id, dispName)] stored in [obj]. *)
Definition new_entry zip pak disp node : ObjEntry :=
  {| oe_zip := zip; oe_node := node; oe_pak_id := pak; oe_disp := disp |}.

(** The provenance of a record of [obj]. *)
Definition provenance (packages : ODict.t Package) (c : Category) (k : string) (r : ObjEntry) : Prop :=
  (exists p, In p (map snd packages) /\ In (oe_node r) (find_all (pk_info p) (cat_name c)) /\
     oe_zip r = pk_zip p /\ oe_pak_id r = pk_id p /\ oe_disp r = pk_disp p) /\
  pget_opt (oe_node r) "id" = Some (PVStr k).

(** The shape of the override store after collection from empty stores. *)
Definition override_shape (ld : Loader) : Prop :=
  forall c, obj_override ld c = OvDict [] \/
    exists z node id, obj_override ld c = OvList [(z, node)] /\
      pv_eqb (pget_def node "overrideOrig" (PVStr "0")) "1" = true /\
      pget_opt node "id" = Some (PVStr id) /\ ODict.mem id (obj ld c) = true.

(** A value of [folders] that holds the data of a loaded folder. *)
Definition is_folder (v : PyVal) : Prop := exists f, v = VFolder f.

(** Every style value of a version is loaded folder data. *)
Definition styles_loaded (v : Version) : Prop :=
  forall k x, ODict.get k (v_styles v) = Some x -> is_folder x.

(** Every value of a [folders] dictionary is loaded folder data. *)
Definition all_folders (F : ODict.t PyVal) : Prop :=
  forall k x, ODict.get k F = Some x -> is_folder x.

(** The style values of the [version] blocks that were marked in [folders]. *)
Definition marked_ver (ver : Property) (st : list Version * ODict.t PyVal) : Prop :=
  forall sl sty s, In sl (find_all (pchildren ver) "styles") -> In sty (pchildren sl) ->
    pvalue sty = PVStr s -> ODict.mem s (snd st) = true.

(** The keys of [folders] only grow. *)
Definition keys_grow {X} (st st' : X * ODict.t PyVal) : Prop :=
  forall k, ODict.mem k (snd st) = true -> ODict.mem k (snd st') = true.

(** The [name], [is_beta] and [is_dep] entries of a version. *)
Definition ver_meta (v : Version) : PropValue * bool * bool :=
  (v_name v, v_is_beta v, v_is_dep v).

(** The same entries read off a [version] block. *)
Definition node_meta (ver : Property) : PropValue * bool * bool :=
  (pget_def ver "name" (PVStr ""), pv_eqb (pget_def ver "beta" (PVStr "0")) "1",
   pv_eqb (pget_def ver "deprecated" (PVStr "0")) "1").

(** The [def_style] entry of the version being parsed. *)
Definition def_of (st : Version * ODict.t PyVal) : PyVal := v_def_style (fst st).

(** A [version] block that declares no style. *)
Definition no_style (ver : Property) : Prop :=
  forall sl, In sl (find_all (pchildren ver) "styles") -> pchildren sl = [].

(** The [def_style] of the version parsed from a [version] block. *)
Definition def_rel (ver : Property) (v : Version) : Prop :=
  (no_style ver /\ v_def_style v = VNone) \/
  exists sl sty, In sl (find_all (pchildren ver) "styles") /\ In sty (pchildren sl) /\
    v_def_style v = VProp (pvalue sty).

(** No package registered for an entry has the id [id]. *)
Definition no_id (dir id : string) (e : DirEntry) : Prop :=
  forall r, reg_entry dir e = Some r -> re_id r <> id.

(** * Concrete inputs *)

(** The spec's scenario: style [B] based on [A], item "widget" with data for
    [A] only. *)
Definition ex_A : Style := {| sty_id := "A"; base_style := None |}.
Definition ex_B : Style := {| sty_id := "B"; base_style := Some "A"%string |}.

Definition ex_version : Version :=
  {| v_name := PVStr ""; v_is_beta := false; v_is_dep := false;
     v_styles := [("A"%string, VProp (PVStr "folder1"))];
     v_def_style := VProp (PVStr "folder1") |}.

Definition ex_item : Item :=
  {| item_id := "widget"; versions := [ex_version]; def_data := VProp (PVStr "folder1") |}.

(** Two styles naming each other as base. *)
Definition cyc_A : Style := {| sty_id := "A"; base_style := Some "B"%string |}.
Definition cyc_B : Style := {| sty_id := "B"; base_style := Some "A"%string |}.

(** An archive with no entries, and definition nodes of one package. *)
Definition empty_zip : Zip := {| namelist := []; parse_entry := fun _ => [] |}.

Definition sky_override : Property :=
  PTree "Skybox" [PLeaf "id" "sky1"; PLeaf "overrideOrig" "1"; PLeaf "name" "Sky"].
Definition sky_original : Property :=
  PTree "Skybox" [PLeaf "id" "sky1"; PLeaf "name" "Sky"].
Definition sky_duplicate : Property :=
  PTree "Skybox" [PLeaf "id" "sky1"; PLeaf "name" "Other sky"].

(** A package whose first Style definition has no [id]. *)
Definition pkg_missing_id : Package :=
  {| pk_id := "base"; pk_zip := empty_zip;
     pk_info := [PLeaf "ID" "base";
                 PTree "Style" [PLeaf "name" "Clean"];
                 PTree "Item" [PLeaf "id" "widget"]];
     pk_name := "base.zip"; pk_disp := "base" |}.

Definition reg_missing_id : ODict.t Package := [("base", pkg_missing_id)].

(** A package with an original and a duplicate Skybox. *)
Definition pkg_dup : Package :=
  {| pk_id := "base"; pk_zip := empty_zip;
     pk_info := [PLeaf "ID" "base"; sky_original; sky_duplicate];
     pk_name := "base.zip"; pk_disp := "base" |}.

Definition reg_dup : ODict.t Package := [("base", pkg_dup)].

(** A package whose only definition is an override of a Skybox that no
    package defines. *)
Definition pkg_over : Package :=
  {| pk_id := "ext"; pk_zip := empty_zip;
     pk_info := [PLeaf "ID" "ext"; sky_override];
     pk_name := "ext.zip"; pk_disp := "ext" |}.

Definition reg_over : ODict.t Package := [("ext", pkg_over)].

(** The package with the original Skybox alone; the override package
    listed before it; and two packages overriding the same Skybox after it. *)
Definition pkg_orig : Package :=
  {| pk_id := "base"; pk_zip := empty_zip;
     pk_info := [PLeaf "ID" "base"; sky_original];
     pk_name := "base.zip"; pk_disp := "base" |}.

Definition reg_order : ODict.t Package := [("ext", pkg_over); ("base", pkg_orig)].

Definition sky_override2 : Property :=
  PTree "Skybox" [PLeaf "id" "sky1"; PLeaf "overrideOrig" "1"; PLeaf "name" "Night sky"].

Definition pkg_over2 : Package :=
  {| pk_id := "ext2"; pk_zip := empty_zip;
     pk_info := [PLeaf "ID" "ext2"; sky_override2];
     pk_name := "ext2.zip"; pk_disp := "ext2" |}.

Definition reg_two_over : ODict.t Package :=
  [("base", pkg_orig); ("ext", pkg_over); ("ext2", pkg_over2)].

(** The loader after the original Skybox of [pkg_dup] was collected. *)
Definition ld_sky : Loader :=
  set_obj init_loader CSkybox
    (ODict.set "sky1" {| oe_zip := empty_zip; oe_node := sky_original; oe_pak_id := "base";
                         oe_disp := "base" |} (obj init_loader CSkybox)).

(** An item with two versions using different folders for style [A]. *)
Definition item_zip : Zip :=
  {| namelist := ["items/f1/properties.txt"; "items/f1/editoritems.txt";
                  "items/f2/properties.txt"; "items/f2/editoritems.txt"];
     parse_entry := fun path =>
       if String.eqb path "items/f1/properties.txt"
       then [PTree "Properties" [PLeaf "authors" "Alice"]]
       else if String.eqb path "items/f2/properties.txt"
       then [PTree "Properties" [PLeaf "authors" "Bob"]]
       else [] |}.

Definition item_info : Property :=
  PTree "Item" [PLeaf "id" "widget";
                PTree "version" [PLeaf "name" "v1"; PTree "styles" [PLeaf "A" "f1"]];
                PTree "version" [PLeaf "name" "v2"; PTree "styles" [PLeaf "A" "f2"]]].

(** An item definition without any [version] block. *)
Definition item_info_empty : Property := PTree "Item" [PLeaf "id" "widget"].

(** A voice pack, a skybox and a goo whose configuration is not in the archive. *)
Definition voice_node : Property :=
  PTree "QuotePack" [PLeaf "id" "cave"; PLeaf "name" "Cave"; PLeaf "file" "cave"].
Definition skybox_node : Property :=
  PTree "Skybox" [PLeaf "id" "sky1"; PLeaf "name" "Sky"; PLeaf "config" "sky"].
Definition goo_node : Property :=
  PTree "Goo" [PLeaf "id" "toxic"; PLeaf "name" "Toxic"; PLeaf "config" "toxic.cfg"].

(** Two skyboxes, an original and an override. *)
Definition sky_obj (auth : string) : Skybox :=
  {| sk_id := "sky1"; sk_short_name := PVStr "Sky"; sk_name := PVStr "Sky";
     sk_icon := PVStr "_blank"; sk_material := PVStr "sky_black"; sk_config := [];
     sk_auth := [auth]; sk_desc := [] |}.

(** A style archive and definition nodes for the selector-item parsers. *)
Definition style_zip : Zip :=
  {| namelist := ["styles/clean/items.txt"]; parse_entry := fun _ => [PTree "Item" []] |}.
Definition style_node : Property :=
  PTree "Style" [PLeaf "authors" "Ann, Bo"; PLeaf "name" "Clean"; PLeaf "shortName" "";
                 PLeaf "folder" "clean"; PTree "description" [PLeaf "Text" "Plain walls"]].
Definition noname_node : Property := PTree "Style" [PLeaf "authors" "Ann"].
Definition blockauth_node : Property :=
  PTree "Style" [PTree "authors" [PLeaf "a" "Ann"]; PLeaf "name" "Clean"].

(** An archive holding the skybox configuration [skybox/Sky.cfg] only. *)
Definition sky_zip : Zip := {| namelist := ["skybox/Sky.cfg"]; parse_entry := fun _ => [] |}.

(** A package with an original and an override of the same Skybox. *)
Definition pkg_both : Package :=
  {| pk_id := "base"; pk_zip := empty_zip;
     pk_info := [PLeaf "ID" "base"; sky_original; sky_override];
     pk_name := "base.zip"; pk_disp := "base" |}.

Definition reg_both : ODict.t Package := [("base", pkg_both)].

(** The [info.txt] of a package that requires the unregistered [core]. *)
Definition pre_info : list Property :=
  [PLeaf "ID" "ext"; PTree "Prerequisites" [PLeaf "Package" "core"]; sky_original].

(** An item whose two versions declare no style. *)
Definition item_plain : Property :=
  PTree "Item" [PLeaf "id" "plain"; PTree "version" [PLeaf "name" "v1"];
                PTree "version" [PLeaf "name" "v2"]].

(** Archives of a package directory. *)
Definition info_zip (id : string) : Zip :=
  {| namelist := ["info.txt"]; parse_entry := fun _ => [PLeaf "ID" id; PLeaf "Name" "Pack"] |}.
Definition noid_zip : Zip :=
  {| namelist := ["info.txt"]; parse_entry := fun _ => [PLeaf "Name" "Pack"] |}.

Definition listing : list DirEntry :=
  [DEFile "a.zip" (info_zip "p1"); DEDir "d.zip"; DEFile "notes.txt" (info_zip "p2");
   DEFile "b.zip" (info_zip "p1"); DEFile "c.zip" empty_zip].

(** An archive with three resources, one of them in other letter case, and a
    package description. *)
Definition res_zip : Zip :=
  {| namelist := ["resources/BEE2/a.png"; "Resources/bee2/b.png"; "resources/instances/c.vmf";
                  "info.txt"];
     parse_entry := fun _ => [] |}.

(** An archive with a [goo/] directory entry, and a goo without [config]. *)
Definition goo_zip : Zip := {| namelist := ["goo/"]; parse_entry := fun _ => [PLeaf "x" "y"] |}.
Definition goo_plain : Property :=
  PTree "Goo" [PLeaf "id" "g"; PLeaf "name" "Goo"].

(** The loaders collected from [reg_dup] and from [reg_both]. *)
Definition ld_of (r : result (Loader * nat) * list string) : Loader :=
  match fst r with Ok (ld, _) => ld | Err _ => init_loader end.
Definition n_of (r : result (Loader * nat) * list string) : nat :=
  match fst r with Ok (_, n) => n | Err _ => 0 end.

Definition ld_dup : Loader := ld_of (collect_all reg_dup init_loader []).
Definition ld_both : Loader := ld_of (collect_all reg_both init_loader []).

(** * Proofs *)

(** ** Facts on ordered dictionaries *)

Module ODictFacts.
Import ODict.

Lemma get_set_eq {V} k (v : V) d : get k (set k v d) = Some v.
Proof.
  induction d as [|[k' v'] d IH]; simpl.
  - now rewrite String.eqb_refl.
  - destruct (String.eqb k k') eqn:E; simpl; rewrite ?String.eqb_refl, ?E; auto.
Qed.

Lemma get_set_neq {V} k k2 (v : V) d : k2 <> k -> get k2 (set k v d) = get k2 d.
Proof.
  intros Hne. induction d as [|[k' v'] d IH]; simpl.
  - apply String.eqb_neq in Hne. now rewrite Hne.
  - destruct (String.eqb k k') eqn:E; simpl.
    + apply String.eqb_eq in E; subst k'.
      apply String.eqb_neq in Hne. now rewrite Hne.
    + now rewrite IH.
Qed.

Lemma get_In {V} k (v : V) d : get k d = Some v -> In (k, v) d.
Proof.
  induction d as [|[k' v'] d IH]; simpl; [discriminate|].
  destruct (String.eqb k k') eqn:E; intros H.
  - apply String.eqb_eq in E; subst. injection H as <-. now left.
  - right; auto.
Qed.

Lemma In_get_NoDup {V} k (v : V) d :
  NoDup (map fst d) -> In (k, v) d -> get k d = Some v.
Proof.
  induction d as [|[k' v'] d IH]; simpl; [contradiction|].
  intros Hnd [Heq | Hin]; inversion Hnd as [|? ? Hnin Hnd']; subst.
  - injection Heq as <- <-. now rewrite String.eqb_refl.
  - destruct (String.eqb k k') eqn:E; auto.
    apply String.eqb_eq in E; subst k'.
    exfalso; apply Hnin. apply (in_map fst) in Hin; exact Hin.
Qed.

Lemma In_fst_set {V} k k2 (v : V) d :
  In k2 (map fst (set k v d)) <-> k2 = k \/ In k2 (map fst d).
Proof.
  induction d as [|[k' v'] d IH]; simpl.
  - intuition.
  - destruct (String.eqb k k') eqn:E; simpl.
    + apply String.eqb_eq in E; subst k'. intuition.
    + rewrite IH. intuition.
Qed.

Lemma NoDup_set {V} k (v : V) d : NoDup (map fst d) -> NoDup (map fst (set k v d)).
Proof.
  induction d as [|[k' v'] d IH]; simpl; intros Hnd.
  - constructor; [intros []|constructor].
  - inversion Hnd as [|? ? Hnin Hnd']; subst.
    destruct (String.eqb k k') eqn:E; simpl; constructor; auto.
    rewrite In_fst_set. intros [-> | H]; [|contradiction].
    apply Hnin. rewrite String.eqb_refl in E; discriminate.
Qed.

Lemma mem_get {V} k (d : t V) : mem k d = true <-> exists v, get k d = Some v.
Proof.
  unfold mem; destruct (get k d); split; intros H; try discriminate; eauto.
  destruct H; discriminate.
Qed.

End ODictFacts.

(** ** The base-style loop *)

Module StyleTree.
Import ODict ODictFacts.

Lemma base_loop_acc f st b acc :
  base_loop f st b acc = option_map (app acc) (base_loop f st b []).
Proof.
  revert b acc; induction f as [|f IH]; intros b acc; simpl; [reflexivity|].
  destruct b as [s|]; simpl.
  - rewrite (IH _ (acc ++ [s])), (IH _ ([] ++ [s])).
    destruct (base_loop f st _ []); simpl; [now rewrite <- app_assoc|reflexivity].
  - now rewrite app_nil_r.
Qed.

Lemma base_loop_det f1 f2 st b acc r1 r2 :
  base_loop f1 st b acc = Some r1 -> base_loop f2 st b acc = Some r2 -> r1 = r2.
Proof.
  revert f2 b acc; induction f1 as [|f1 IH]; intros f2 b acc H1 H2; [discriminate|].
  destruct f2 as [|f2]; [discriminate|]. simpl in *.
  destruct b; [eapply IH; eauto|congruence].
Qed.

Lemma walk_res_det st b r1 r2 : walk_res st b r1 -> walk_res st b r2 -> r1 = r2.
Proof. intros [f1 H1] [f2 H2]; eapply base_loop_det; eauto. Qed.

Lemma walk_res_None st r : walk_res st None r -> r = [].
Proof. intros [[|f] H]; simpl in H; congruence. Qed.

Lemma walk_res_Some st s r :
  walk_res st (Some s) r ->
  exists r', r = s :: r' /\ walk_res st (styles_get st (base_style s)) r'.
Proof.
  intros [[|f] H]; simpl in H; [discriminate|].
  rewrite base_loop_acc in H.
  destruct (base_loop f st _ []) as [r'|] eqn:E; simpl in H; [|discriminate].
  injection H as <-. exists r'; split; [reflexivity|exists f; exact E].
Qed.

(** ** The style index *)

Lemma style_index_key ss k s : get k (style_index ss) = Some s -> sty_id s = k.
Proof.
  unfold style_index.
  assert (Hinv : forall d, (forall k s, get k d = Some s -> sty_id s = k) ->
                 forall k s, get k (fold_left (fun d s => set (sty_id s) s d) ss d) = Some s ->
                 sty_id s = k).
  { induction ss as [|x ss IH]; simpl; intros d Hd; [exact Hd|].
    apply IH. intros k' s' Hg.
    destruct (String.eqb k' (sty_id x)) eqn:E.
    - apply String.eqb_eq in E; subst k'. rewrite get_set_eq in Hg. now injection Hg as <-.
    - apply String.eqb_neq in E. rewrite get_set_neq in Hg by exact E. now apply Hd. }
  apply Hinv. intros ? ? H; discriminate.
Qed.

Lemma style_index_NoDup ss : NoDup (map fst (style_index ss)).
Proof.
  unfold style_index.
  assert (Hinv : forall d, NoDup (map fst d) ->
                 NoDup (map fst (fold_left (fun d s => set (sty_id s) s d) ss d))).
  { induction ss as [|x ss IH]; simpl; intros d Hd; [exact Hd|].
    apply IH, NoDup_set, Hd. }
  apply Hinv; constructor.
Qed.

Lemma stored_next ss x y :
  styles_get (style_index ss) (base_style x) = Some y ->
  get (sty_id y) (style_index ss) = Some y.
Proof.
  unfold styles_get. destruct (base_style x) as [k|]; [|discriminate].
  intros H. now rewrite (style_index_key ss k y H).
Qed.

Lemma with_bases_keys f st vs idx :
  with_bases f st vs = Some idx -> map fst idx = map fst vs.
Proof.
  revert idx; induction vs as [|[k s] vs IH]; simpl; intros idx H.
  - now injection H as <-.
  - destruct (style_bases f st s); [|discriminate].
    destruct (with_bases f st vs) as [idx'|] eqn:E; simpl in H; [|discriminate].
    injection H as <-. simpl. now rewrite (IH idx' eq_refl).
Qed.

Lemma with_bases_In f st vs idx k s bs :
  with_bases f st vs = Some idx -> In (k, (s, bs)) idx ->
  In (k, s) vs /\ style_bases f st s = Some bs.
Proof.
  revert idx; induction vs as [|[k' s'] vs IH]; simpl; intros idx H Hin.
  - injection H as <-. contradiction.
  - destruct (style_bases f st s') as [bs'|] eqn:Eb; [|discriminate].
    destruct (with_bases f st vs) as [idx'|] eqn:E; simpl in H; [|discriminate].
    injection H as <-. destruct Hin as [Heq | Hin].
    + injection Heq as <- <- <-. auto.
    + destruct (IH idx' eq_refl Hin); auto.
Qed.

End StyleTree.

(** ** Resolution of one item version *)

Module Resolve.
Import ODict ODictFacts StyleTree.

Lemma resolve_style_styles v k s bs :
  v_styles (resolve_style v (k, (s, bs))) =
  if mem k (v_styles v) then v_styles v
  else set k (opt_default (scan_bases bs (v_styles v)) (v_def_style v)) (v_styles v).
Proof.
  unfold resolve_style. destruct (mem k (v_styles v)); [reflexivity|].
  destruct (scan_bases bs (v_styles v)); reflexivity.
Qed.

Lemma resolve_style_def v e : v_def_style (resolve_style v e) = v_def_style v.
Proof.
  destruct e as [k [s bs]]; unfold resolve_style.
  destruct (mem k (v_styles v)); [reflexivity|].
  destruct (scan_bases bs (v_styles v)); reflexivity.
Qed.

Lemma mem_set_mono {V} k k2 (x : V) d : mem k2 d = true -> mem k2 (set k x d) = true.
Proof.
  intros H. apply mem_get in H as [y Hy]. apply mem_get.
  destruct (String.eqb k2 k) eqn:E.
  - apply String.eqb_eq in E; subst. rewrite get_set_eq; eauto.
  - apply String.eqb_neq in E. rewrite get_set_neq by exact E. eauto.
Qed.

Lemma resolve_style_mono v e k :
  mem k (v_styles v) = true -> mem k (v_styles (resolve_style v e)) = true.
Proof.
  destruct e as [k' [s bs]]. rewrite resolve_style_styles.
  destruct (mem k' (v_styles v)); [auto|apply mem_set_mono].
Qed.

Lemma resolve_style_adds v k s bs : mem k (v_styles (resolve_style v (k, (s, bs)))) = true.
Proof.
  rewrite resolve_style_styles. destruct (mem k (v_styles v)) eqn:E; [exact E|].
  apply mem_get. rewrite get_set_eq; eauto.
Qed.

(** After [for id, style in styles.items()], every key of the index is
    present, and so is every key present before. *)
Lemma fold_resolve_mem es v k :
  mem k (v_styles v) = true \/ In k (map fst es) ->
  mem k (v_styles (fold_left resolve_style es v)) = true.
Proof.
  revert v; induction es as [|[k' [s bs]] es IH]; cbn [fold_left map fst In]; intros v H.
  - destruct H; [exact H|contradiction].
  - apply IH. destruct H as [H | [<- | H]].
    + left; now apply resolve_style_mono.
    + left; apply resolve_style_adds.
    + right; exact H.
Qed.

Section Invariant.

Variable ss : list Style.
Variable m0 : ODict.t PyVal.
Variable def : PyVal.

Local Abbreviation st := (style_index ss).
Local Abbreviation Inv := (resolve_inv ss m0 def).

Lemma scan_chain c x m :
  walk_res st (Some x) c -> get (sty_id x) st = Some x -> Inv m ->
  opt_default (scan_bases c m) def = opt_default (scan_bases c m0) def.
Proof.
  revert x; induction c as [|y c IH]; intros x Hw Hx [Ha Hb].
  - destruct (walk_res_Some _ _ _ Hw) as [r' [Heq _]]; discriminate.
  - destruct (walk_res_Some _ _ _ Hw) as [r' [Heq Hw']].
    injection Heq as -> ->. simpl.
    destruct (get (sty_id x) m) as [p|] eqn:Em.
    + destruct (get (sty_id x) m0) as [p0|] eqn:Em0.
      * rewrite (Ha _ _ Em0) in Em. now injection Em as ->.
      * destruct (Hb _ _ Em Em0) as [s [bs [Hs [Hws ->]]]].
        rewrite Hx in Hs; injection Hs as <-.
        rewrite (walk_res_det _ _ _ _ Hws Hw). simpl. now rewrite Em0.
    + destruct (get (sty_id x) m0) as [p0|] eqn:Em0.
      { rewrite (Ha _ _ Em0) in Em; discriminate. }
      destruct (styles_get st (base_style x)) as [z|] eqn:En.
      * apply (IH z); [exact Hw'|eapply stored_next; exact En|split; assumption].
      * apply walk_res_None in Hw'; subst; reflexivity.
Qed.

Lemma resolve_style_inv v k s bs :
  get k st = Some s -> walk_res st (Some s) bs ->
  v_def_style v = def -> Inv (v_styles v) ->
  Inv (v_styles (resolve_style v (k, (s, bs)))).
Proof.
  intros Hs Hw Hd HI. rewrite resolve_style_styles.
  destruct (mem k (v_styles v)) eqn:Emem; [exact HI|].
  assert (Hk : get k (v_styles v) = None).
  { destruct (get k (v_styles v)) eqn:E; [|reflexivity].
    assert (mem k (v_styles v) = true) by (apply mem_get; eauto). congruence. }
  assert (Hk0 : get k m0 = None).
  { destruct (get k m0) eqn:E; [|reflexivity]. rewrite (proj1 HI _ _ E) in Hk; discriminate. }
  assert (Hid : sty_id s = k) by (eapply style_index_key; exact Hs).
  rewrite Hd, (scan_chain bs s (v_styles v)); [|exact Hw|now rewrite Hid|exact HI].
  destruct HI as [Ha Hb]; split.
  - intros k' x H'. destruct (String.eqb k' k) eqn:E.
    + apply String.eqb_eq in E; subst. congruence.
    + apply String.eqb_neq in E. rewrite get_set_neq by exact E. auto.
  - intros k' x H' H0. destruct (String.eqb k' k) eqn:E.
    + apply String.eqb_eq in E; subst. rewrite get_set_eq in H'. injection H' as <-.
      exists s, bs; auto.
    + apply String.eqb_neq in E. rewrite get_set_neq in H' by exact E. auto.
Qed.

Lemma fold_resolve_inv es v :
  (forall k s bs, In (k, (s, bs)) es -> get k st = Some s /\ walk_res st (Some s) bs) ->
  v_def_style v = def -> Inv (v_styles v) ->
  Inv (v_styles (fold_left resolve_style es v)).
Proof.
  revert v; induction es as [|[k [s bs]] es IH]; cbn [fold_left]; intros v Hes Hd HI;
    [exact HI|].
  destruct (Hes k s bs (or_introl eq_refl)) as [Hs Hw].
  apply IH.
  - intros; apply Hes; now right.
  - now rewrite resolve_style_def.
  - now apply resolve_style_inv.
Qed.

End Invariant.

End Resolve.

(** ** Claims on [setup_style_tree] *)

Module StyleClaims.
Import ODict ODictFacts StyleTree Resolve.

Lemma setup_style_tree_shape fuel ss items idx items' :
  setup_style_tree fuel ss items = Some (idx, items') ->
  with_bases fuel (style_index ss) (style_index ss) = Some idx /\
  items' = map (resolve_item idx) items.
Proof.
  unfold setup_style_tree. destruct (with_bases _ _ _) as [idx0|]; [|discriminate].
  intros H; injection H as <- <-. auto.
Qed.

(** C1: when [setup_style_tree] returns, every version of every item has an
    entry in its [styles] mapping for every style id of the Style index. *)
Theorem setup_style_tree_complete fuel ss items idx items' :
  setup_style_tree fuel ss items = Some (idx, items') ->
  forall it, In it items' -> forall v, In v (versions it) ->
  forall k, mem k (style_index ss) = true -> mem k (v_styles v) = true.
Proof.
  intros H it Hit v Hv k Hk.
  destruct (setup_style_tree_shape _ _ _ _ _ H) as [Hwb ->].
  apply in_map_iff in Hit as [it0 [<- _]].
  simpl in Hv. apply in_map_iff in Hv as [v0 [<- _]].
  unfold resolve_version. apply fold_resolve_mem. right.
  rewrite (with_bases_keys _ _ _ _ Hwb).
  apply mem_get in Hk as [s Hs]. apply get_In in Hs.
  apply (in_map fst) in Hs; exact Hs.
Qed.

(** C2: a style id [K] missing from a version before resolution receives the
    value of the first style of [K]'s [bases] (itself, then its ancestors
    nearest first) present in the version's original mapping, or the
    version's [def_style] when none is present; in particular, when [B]
    declares [base_style = A], [A] is a style and the version has data for
    [A] but not for [B], [B] receives [A]'s value. *)
Theorem setup_style_tree_inherit fuel ss items idx items' :
  setup_style_tree fuel ss items = Some (idx, items') ->
  items' = map (resolve_item idx) items /\
  (forall v K s, get K (style_index ss) = Some s -> get K (v_styles v) = None ->
     exists bs, get K idx = Some (s, bs) /\
                style_bases fuel (style_index ss) s = Some bs /\
                get K (v_styles (resolve_version idx v)) =
                  Some (opt_default (scan_bases bs (v_styles v)) (v_def_style v))) /\
  (forall v A B sA sB x,
     get B (style_index ss) = Some sB -> base_style sB = Some A ->
     get A (style_index ss) = Some sA ->
     get A (v_styles v) = Some x -> get B (v_styles v) = None ->
     get B (v_styles (resolve_version idx v)) = Some x).
Proof.
  intros H. destruct (setup_style_tree_shape _ _ _ _ _ H) as [Hwb Hitems].
  set (st := style_index ss) in *.
  assert (Hndi : NoDup (map fst idx)).
  { rewrite (with_bases_keys _ _ _ _ Hwb). apply style_index_NoDup. }
  assert (Hentries : forall k s bs, In (k, (s, bs)) idx ->
            get k st = Some s /\ walk_res st (Some s) bs).
  { intros k s bs Hin. destruct (with_bases_In _ _ _ _ _ _ _ Hwb Hin) as [Hin' Hb].
    split; [apply In_get_NoDup; [apply style_index_NoDup|exact Hin']|exists fuel; exact Hb]. }
  assert (Hgen : forall v K s, get K st = Some s -> get K (v_styles v) = None ->
     exists bs, get K idx = Some (s, bs) /\ style_bases fuel st s = Some bs /\
                get K (v_styles (resolve_version idx v)) =
                  Some (opt_default (scan_bases bs (v_styles v)) (v_def_style v))).
  { intros v K s Hs HK.
    assert (HKin : In K (map fst idx)).
    { rewrite (with_bases_keys _ _ _ _ Hwb). apply get_In in Hs.
      apply (in_map fst) in Hs; exact Hs. }
    apply in_map_iff in HKin as [[K' [s' bs]] [HK' Hin]]; simpl in HK'; subst K'.
    destruct (with_bases_In _ _ _ _ _ _ _ Hwb Hin) as [Hin' Hb].
    pose proof (In_get_NoDup _ _ _ (style_index_NoDup ss) Hin') as Hs'.
    fold st in Hs'. rewrite Hs' in Hs. injection Hs as <-.
    exists bs; split; [now apply In_get_NoDup|split; [exact Hb|]].
    assert (HI0 : resolve_inv ss (v_styles v) (v_def_style v) (v_styles v)).
    { split; [auto|intros k x Hx Hn; congruence]. }
    pose proof (fold_resolve_inv ss (v_styles v) (v_def_style v) idx v Hentries eq_refl HI0)
      as [_ Hb2].
    assert (Hm : mem K (v_styles (resolve_version idx v)) = true).
    { apply fold_resolve_mem. right. apply (in_map fst) in Hin; exact Hin. }
    apply mem_get in Hm as [y Hy].
    destruct (Hb2 _ _ Hy HK) as [s2 [bs2 [Hs2 [Hw2 ->]]]].
    fold st in Hs2, Hw2. rewrite Hs' in Hs2. injection Hs2 as <-.
    rewrite (walk_res_det _ _ _ _ Hw2 (ex_intro _ fuel Hb)) in Hy. exact Hy. }
  split; [exact Hitems|split; [exact Hgen|]].
  intros v A B sA sB x HB HbA HA Hx HBv.
  destruct (Hgen v B sB HB HBv) as [bs [_ [Hb ->]]].
  destruct (walk_res_Some st sB bs (ex_intro _ fuel Hb)) as [r [-> Hr]].
  rewrite HbA in Hr; simpl in Hr. fold st in Hr. rewrite HA in Hr.
  destruct (walk_res_Some st sA r Hr) as [r' [-> _]].
  simpl. rewrite (style_index_key ss B sB HB), HBv.
  rewrite (style_index_key ss A sA HA), Hx. reflexivity.
Qed.

End StyleClaims.

(** ** The base chain of one style *)

Module BaseChain.
Import ODict ODictFacts StyleTree.

Lemma last_default {A} (l : list A) d d' : l <> [] -> last l d = last l d'.
Proof.
  induction l as [|x [|y l] IH]; intros H; [congruence|reflexivity|].
  simpl. apply IH; discriminate.
Qed.

Lemma walk_suffix st b c x :
  walk_res st b c -> In x c -> exists pre d, c = pre ++ d /\ walk_res st (Some x) d.
Proof.
  revert b; induction c as [|y c IH]; intros b Hw Hin; [contradiction|].
  destruct b as [b|]; [|apply walk_res_None in Hw; discriminate].
  destruct (walk_res_Some _ _ _ Hw) as [r [Heq Hw']]. injection Heq as -> ->.
  destruct Hin as [-> | Hin].
  - exists [], (x :: r); auto.
  - destruct (IH _ Hw' Hin) as [pre [d [-> Hd]]].
    exists (b :: pre), d; auto.
Qed.

Lemma walk_NoDup st s c : walk_res st (Some s) c -> NoDup c.
Proof.
  revert s; induction c as [|y c IH]; intros s Hw; [constructor|].
  destruct (walk_res_Some _ _ _ Hw) as [r [Heq Hw']]. injection Heq as -> ->.
  constructor.
  - intros Hin. destruct (walk_suffix _ _ _ _ Hw' Hin) as [pre [d [Hc Hd]]].
    rewrite (walk_res_det _ _ _ _ Hd Hw) in Hc.
    apply (f_equal (@length Style)) in Hc. rewrite length_app in Hc. simpl in Hc. lia.
  - destruct (styles_get st (base_style s)) as [z|]; [eapply IH; exact Hw'|].
    apply walk_res_None in Hw'; subst; constructor.
Qed.

Lemma walk_links st s c :
  walk_res st (Some s) c ->
  (forall i x y, nth_error c i = Some x -> nth_error c (S i) = Some y ->
                 styles_get st (base_style x) = Some y) /\
  styles_get st (base_style (last c s)) = None.
Proof.
  revert s; induction c as [|y c IH]; intros s Hw.
  - destruct (walk_res_Some _ _ _ Hw) as [r [Heq _]]; discriminate.
  - destruct (walk_res_Some _ _ _ Hw) as [r [Heq Hw']]. injection Heq as -> ->.
    destruct (styles_get st (base_style s)) as [z|] eqn:En.
    + destruct (walk_res_Some _ _ _ Hw') as [r' [-> _]].
      destruct (IH z Hw') as [Hl He]. split.
      * intros [|i] x y Hx Hy; simpl in Hx, Hy.
        -- injection Hx as <-; injection Hy as <-; exact En.
        -- exact (Hl i x y Hx Hy).
      * change (last (s :: z :: r') s) with (last (z :: r') s).
        rewrite (last_default _ s z) by discriminate. exact He.
    + apply walk_res_None in Hw'; subst. split; [|exact En].
      intros [|i] x y Hx Hy; simpl in Hy; [discriminate|destruct i; discriminate].
Qed.

Lemma two_cycle st a b :
  styles_get st (base_style a) = Some b -> styles_get st (base_style b) = Some a ->
  forall fuel acc, base_loop fuel st (Some a) acc = None /\ base_loop fuel st (Some b) acc = None.
Proof.
  intros Hab Hba fuel. induction fuel as [|f IH]; intros acc; [split; reflexivity|].
  simpl. rewrite Hab, Hba. split; apply IH.
Qed.

Lemma with_bases_all f st vs idx k s :
  with_bases f st vs = Some idx -> In (k, s) vs -> exists bs, style_bases f st s = Some bs.
Proof.
  revert idx; induction vs as [|[k' s'] vs IH]; simpl; intros idx H Hin; [contradiction|].
  destruct (style_bases f st s') as [bs|] eqn:Eb; [|discriminate].
  destruct (with_bases f st vs) as [idx'|] eqn:E; simpl in H; [|discriminate].
  destruct Hin as [Heq | Hin]; [injection Heq as <- <-; eauto|eapply IH; eauto].
Qed.

End BaseChain.

(** ** Claims on the base chain *)

Module ChainClaims.
Import ODict ODictFacts StyleTree BaseChain.

(** C3 (counterexample): with [A] based on [B] and [B] based on [A], the
    [while] loop computing [A]'s bases never ends, whatever the fuel, and so
    [setup_style_tree] never returns. *)
Lemma base_chain_cycle_diverges :
  ~ (exists fuel bs, style_bases fuel (style_index [cyc_A; cyc_B]) cyc_A = Some bs) /\
  ~ (exists fuel r, setup_style_tree fuel [cyc_A; cyc_B] [ex_item] = Some r).
Proof.
  assert (Hc := two_cycle (style_index [cyc_A; cyc_B]) cyc_A cyc_B eq_refl eq_refl).
  split.
  - intros [fuel [bs H]]. unfold style_bases in H. rewrite (proj1 (Hc fuel [])) in H.
    discriminate.
  - intros [fuel [r H]]. unfold setup_style_tree in H.
    destruct (with_bases _ _ _) as [idx|] eqn:E; [|discriminate].
    destruct (with_bases_all _ _ _ _ "A" cyc_A E (or_introl eq_refl)) as [bs Hb].
    unfold style_bases in Hb. rewrite (proj1 (Hc fuel [])) in Hb. discriminate.
Qed.

(** C3 (amended): the base-chain loop has no cycle guard.  When it ends for
    a style, its [bases] list starts with the style, each next entry is the
    style found in the index under the previous entry's [base_style], the
    last entry's [base_style] is not found in the index, and no style occurs
    twice.  When two styles of the index name each other as [base_style],
    the loop never ends for them, and [setup_style_tree] never returns. *)
Theorem base_chain_amended (ss : list Style) (s : Style) :
  (forall fuel bs, style_bases fuel (style_index ss) s = Some bs ->
     (exists r, bs = s :: r) /\
     (forall i x y, nth_error bs i = Some x -> nth_error bs (S i) = Some y ->
                    styles_get (style_index ss) (base_style x) = Some y) /\
     styles_get (style_index ss) (base_style (last bs s)) = None /\
     NoDup bs) /\
  (forall b, styles_get (style_index ss) (base_style s) = Some b ->
     styles_get (style_index ss) (base_style b) = Some s ->
     (forall fuel, style_bases fuel (style_index ss) s = None) /\
     (ODict.get (sty_id s) (style_index ss) = Some s ->
      forall fuel items, setup_style_tree fuel ss items = None)).
Proof.
  split.
  - intros fuel bs H.
    assert (Hw : walk_res (style_index ss) (Some s) bs) by (exists fuel; exact H).
    destruct (walk_res_Some _ _ _ Hw) as [r [Hr _]].
    destruct (walk_links _ _ _ Hw) as [Hl He].
    split; [eauto|split; [exact Hl|split; [exact He|eapply walk_NoDup; exact Hw]]].
  - intros b Hsb Hbs.
    assert (Hc := two_cycle _ _ _ Hsb Hbs).
    split; [intros fuel; apply (proj1 (Hc fuel []))|].
    intros Hs fuel items. unfold setup_style_tree.
    destruct (with_bases _ _ _) as [idx|] eqn:E; [|reflexivity].
    destruct (with_bases_all _ _ _ _ _ s E (get_In _ _ _ Hs)) as [bs Hb].
    unfold style_bases in Hb. rewrite (proj1 (Hc fuel [])) in Hb. discriminate.
Qed.

Lemma base_chain_amended_witness :
  style_bases 5 (style_index [ex_A; ex_B]) ex_B = Some [ex_B; ex_A] /\
  NoDup [ex_B; ex_A] /\
  (forall fuel, style_bases fuel (style_index [cyc_A; cyc_B]) cyc_A = None).
Proof.
  split; [reflexivity|split].
  - apply (proj1 (base_chain_amended [ex_A; ex_B] ex_B) 5); reflexivity.
  - apply (proj2 (base_chain_amended [cyc_A; cyc_B] cyc_A) cyc_B); reflexivity.
Defined.

End ChainClaims.

Module StyleWitnesses.
Import ODict StyleClaims.

Lemma setup_style_tree_complete_witness :
  exists idx items', setup_style_tree 5 [ex_A; ex_B] [ex_item] = Some (idx, items') /\
    forall it, In it items' -> forall v, In v (versions it) -> mem "B" (v_styles v) = true.
Proof.
  destruct (setup_style_tree 5 [ex_A; ex_B] [ex_item]) as [[idx items']|] eqn:E;
    [|vm_compute in E; discriminate].
  exists idx, items'. split; [reflexivity|].
  intros it Hit v Hv.
  exact (setup_style_tree_complete 5 [ex_A; ex_B] [ex_item] idx items' E it Hit v Hv "B"
           eq_refl).
Defined.

Lemma setup_style_tree_inherit_witness :
  exists idx items', setup_style_tree 5 [ex_A; ex_B] [ex_item] = Some (idx, items') /\
    get "B" (v_styles (resolve_version idx ex_version)) = Some (VProp (PVStr "folder1")).
Proof.
  destruct (setup_style_tree 5 [ex_A; ex_B] [ex_item]) as [[idx items']|] eqn:E;
    [|vm_compute in E; discriminate].
  exists idx, items'. split; [reflexivity|].
  apply (proj2 (proj2 (setup_style_tree_inherit 5 [ex_A; ex_B] [ex_item] idx items' E))
           ex_version "A" "B" ex_A ex_B); reflexivity.
Defined.

End StyleWitnesses.

(** ** Definition collection *)

Module Collect.
Import ODict ODictFacts.

Lemma for_each_inv {A S} (P : S -> Prop) (xs : list A) (body : S -> A -> M S) :
  (forall s x l s' l', In x xs -> P s -> body s x l = (Ok s', l') -> P s') ->
  forall s l s' l', P s -> for_each xs s body l = (Ok s', l') -> P s'.
Proof.
  intros Hb. induction xs as [|x xs IH]; simpl; intros s l s' l' Hs H.
  - injection H as <- _. exact Hs.
  - unfold bind in H. destruct (body s x l) as [[a|e] l1] eqn:E; [|discriminate].
    refine (IH _ a l1 s' l' (Hb s x l a l1 (or_introl eq_refl) Hs E) H).
    intros s0 x0 l0 s0' l0' Hin; apply Hb; right; exact Hin.
Qed.

Lemma for_each_err {A S} (xs : list A) (body : S -> A -> M S) x :
  In x xs -> (forall s l, exists e l', body s x l = (Err e, l')) ->
  forall s l, exists e l', for_each xs s body l = (Err e, l').
Proof.
  intros Hin Hx. induction xs as [|y xs IH]; [contradiction|]. simpl; intros s l.
  unfold bind. destruct Hin as [-> | Hin].
  - destruct (Hx s l) as [e [l' ->]]. eauto.
  - destruct (body s y l) as [[a|e] l1]; [apply IH; exact Hin|eauto].
Qed.

Lemma cat_eqb_refl c : cat_eqb c c = true.
Proof. destruct c; reflexivity. Qed.

Lemma cat_eqb_eq c c' : cat_eqb c c' = true -> c = c'.
Proof. destruct c, c'; simpl; congruence. Qed.

(** [collect_one] keeps every record already in [obj]. *)
Lemma collect_one_keeps zip pak disp ld n c0 node l ld' n' l' c id r :
  collect_one zip pak disp (ld, n) c0 node l = (Ok (ld', n'), l') ->
  get id (obj ld c) = Some r -> get id (obj ld' c) = Some r.
Proof.
  unfold collect_one, bind, pget, find_key, ret, raise, print, as_str.
  destruct (find_key_opt _ "id") as [p|]; simpl; [|discriminate].
  destruct (pvalue p) as [idv|]; simpl; [|discriminate].
  destruct (mem idv (obj ld c0)) eqn:Emem.
  - destruct (pv_eqb _ "1").
    + destruct (ov_contains idv _).
      * destruct (obj_override ld c0); simpl; [discriminate|].
        intros H; injection H as <- _ _. auto.
      * intros H; injection H as <- _ _. auto.
    + intros H; injection H as <- _ _. auto.
  - intros H; injection H as <- _ _. simpl. intros Hr.
    destruct (cat_eqb c c0) eqn:Ec; [|exact Hr].
    apply cat_eqb_eq in Ec; subst c0.
    destruct (String.eqb id idv) eqn:Ei.
    + apply String.eqb_eq in Ei; subst idv.
      assert (mem id (obj ld c) = true) by (apply mem_get; eauto). congruence.
    + apply String.eqb_neq in Ei. rewrite get_set_neq by exact Ei. exact Hr.
Qed.

Lemma parse_package_keeps packages ld zip info fname pak disp l ld' n' l' c id r :
  parse_package packages ld zip info fname pak disp l = (Ok (ld', n'), l') ->
  get id (obj ld c) = Some r -> get id (obj ld' c) = Some r.
Proof.
  unfold parse_package, bind at 1.
  destruct (check_prereqs packages pak info l) as [[ok|e] l1]; [|discriminate].
  destruct ok; [|intros H; injection H as <- _ _; auto].
  intros H Hr.
  refine (for_each_inv (fun st => get id (obj (fst st) c) = Some r) _ _ _ (ld, 0) l1
            (ld', n') l' Hr H).
  intros [ld1 n1] ct l2 [ld2 n2] l3 _ H1 H2.
  refine (for_each_inv (fun st => get id (obj (fst st) c) = Some r) _ _ _ (ld1, n1) l2
            (ld2, n2) l3 H1 H2).
  intros [ld3 n3] node l4 [ld4 n4] l5 _ H3 H4.
  eapply collect_one_keeps; eauto.
Qed.

Lemma collect_all_keeps packages ld l ld' n' l' c id r :
  collect_all packages ld l = (Ok (ld', n'), l') ->
  get id (obj ld c) = Some r -> get id (obj ld' c) = Some r.
Proof.
  intros H Hr. unfold collect_all in H.
  refine (for_each_inv (fun st => get id (obj (fst st) c) = Some r) _ _ _ (ld, 0) l
            (ld', n') l' Hr H).
  intros [ld1 n1] p l1 [ld2 n2] l2 _ H1 H2.
  unfold bind, print in H2.
  destruct (parse_package _ _ _ _ _ _ _ _) as [[[ld3 n3]|e] l3] eqn:E; [|discriminate].
  injection H2 as <- _ _. eapply parse_package_keeps; eauto.
Qed.

End Collect.

(** ** Claims on definition collection *)

Module CollectClaims.
Import ODict ODictFacts Collect.

Lemma In_obj_types c : In c obj_types.
Proof. destruct c; simpl; tauto. Qed.

(** C4 (counterexample): whether an override is deferred depends on the
    order of the packages.  With the override package scanned first, its
    node becomes the original of [sky1], the real original is then logged as
    defined twice and dropped, and no override is stored.  With the original
    first and two override packages after it, the second override replaces
    the category's whole override store, so the first one is lost. *)
Lemma override_collection_counterexample :
  match collect_all reg_order init_loader [] with
  | (Ok (ld', _), log) =>
      get "sky1" (obj ld' CSkybox) =
        Some {| oe_zip := empty_zip; oe_node := sky_override; oe_pak_id := "ext";
                oe_disp := "ext" |} /\
      obj_override ld' CSkybox = OvDict [] /\
      In ("ERROR! " ++ dq ++ "sky1" ++ dq ++ " defined twice!")%string log
  | _ => False
  end /\
  match collect_all reg_two_over init_loader [] with
  | (Ok (ld', _), _) => obj_override ld' CSkybox = OvList [(empty_zip, sky_override2)]
  | _ => False
  end.
Proof. split; vm_compute; repeat split; auto 30. Qed.

(** C4 (code bug): the collection step for a definition whose
    [overrideOrig] is ["1"].  When its id has no original yet in its
    category it is recorded as that id's original, exactly as a
    non-override definition, and the override store is left as it is; when
    the id has an original, the test [id in obj_override[comp_type]] never
    holds and the whole override store of the category is replaced by the
    one-element list [[(zip, object)]]. *)
Theorem override_collection_defect zip pak disp ld n c node id l :
  pget_opt node "id" = Some (PVStr id) ->
  pv_eqb (pget_def node "overrideOrig" (PVStr "0")) "1" = true ->
  (mem id (obj ld c) = false ->
   collect_one zip pak disp (ld, n) c node l =
     (Ok (set_obj ld c (set id {| oe_zip := zip; oe_node := node; oe_pak_id := pak;
                                  oe_disp := disp |} (obj ld c)), S n), l) /\
   obj_override (set_obj ld c (set id {| oe_zip := zip; oe_node := node; oe_pak_id := pak;
                                         oe_disp := disp |} (obj ld c))) = obj_override ld) /\
  (mem id (obj ld c) = true -> ov_contains id (obj_override ld c) = false ->
   collect_one zip pak disp (ld, n) c node l =
     (Ok (set_override ld c (OvList [(zip, node)]), S n), l)).
Proof.
  intros Hid Hsub. unfold pget_opt in Hid.
  destruct (find_key_opt (pchildren node) "id") as [p|] eqn:Ep; simpl in Hid; [|discriminate].
  injection Hid as Hp. split.
  - intros Hmem. split; [|reflexivity].
    unfold collect_one, bind, pget, find_key. unfold pget_opt.
    rewrite Ep. simpl. rewrite Hp. simpl. rewrite Hmem. reflexivity.
  - intros Hmem Hov.
    unfold collect_one, bind, pget, find_key. unfold pget_opt.
    rewrite Ep. simpl. rewrite Hp. simpl. rewrite Hmem.
    unfold pget_opt in Hsub. rewrite Hsub, Hov. reflexivity.
Qed.

Lemma override_collection_defect_witness :
  collect_one empty_zip "ext" "ext" (init_loader, 0) CSkybox sky_override [] =
    (Ok (set_obj init_loader CSkybox
           (set "sky1" {| oe_zip := empty_zip; oe_node := sky_override; oe_pak_id := "ext";
                          oe_disp := "ext" |} (obj init_loader CSkybox)), 1), []) /\
  collect_one empty_zip "ext" "ext" (ld_sky, 1) CSkybox sky_override [] =
    (Ok (set_override ld_sky CSkybox (OvList [(empty_zip, sky_override)]), 2), []).
Proof.
  pose proof (override_collection_defect empty_zip "ext" "ext" init_loader 0 CSkybox
                sky_override "sky1" [] ltac:(reflexivity) ltac:(reflexivity)) as H1.
  pose proof (override_collection_defect empty_zip "ext" "ext" ld_sky 1 CSkybox
                sky_override "sky1" [] ltac:(reflexivity) ltac:(reflexivity)) as H2.
  split.
  - exact (proj1 (proj1 H1 ltac:(reflexivity))).
  - exact (proj2 H2 ltac:(reflexivity) ltac:(reflexivity)).
Defined.

(** C8 (counterexample): the Style definition without [id] makes the whole
    collection raise; the Item definition after it is never collected. *)
Lemma missing_id_counterexample :
  outcome (collect_all reg_missing_id init_loader) = Err (NoKeyError "id").
Proof. reflexivity. Qed.

(** C8 (amended): a category definition node without [id], in a package
    whose prerequisites are all registered, makes [parse_package] raise
    from any loader state, and the collection loop of [loadAll] raises in
    turn: the load does not complete. *)
Theorem missing_id_aborts_load packages p c node :
  In p (map snd packages) ->
  (forall l, fst (check_prereqs packages (pk_id p) (pk_info p) l) = Ok true) ->
  In node (find_all (pk_info p) (cat_name c)) ->
  find_key_opt (pchildren node) "id" = None ->
  (forall ld l, exists e l',
     parse_package packages ld (pk_zip p) (pk_info p) (pk_name p) (pk_id p) (pk_disp p) l
     = (Err e, l')) /\
  (forall ld l, exists e l', collect_all packages ld l = (Err e, l')).
Proof.
  intros Hp Hpre Hnode Hid.
  assert (Hpp : forall ld l, exists e l',
     parse_package packages ld (pk_zip p) (pk_info p) (pk_name p) (pk_id p) (pk_disp p) l
     = (Err e, l')).
  { intros ld l. unfold parse_package. unfold bind at 1.
    specialize (Hpre l). destruct (check_prereqs _ _ _ l) as [r l1]; simpl in Hpre; subst r.
    apply (for_each_err _ _ c (In_obj_types c)). intros [ld1 n1] l2.
    apply (for_each_err _ _ node Hnode). intros [ld2 n2] l3.
    unfold collect_one, bind, pget, find_key. rewrite Hid. simpl. eauto. }
  split; [exact Hpp|].
  intros ld l. unfold collect_all.
  apply (for_each_err _ _ p Hp). intros [ld1 n1] l1.
  unfold bind, print. destruct (Hpp ld1 (l1 ++ [("Scanning package '" ++ pk_id p ++ "'")%string]))
    as [e [l' Hq]].
  rewrite Hq. eauto.
Qed.

Lemma missing_id_aborts_load_witness :
  exists e l', collect_all reg_missing_id init_loader [] = (Err e, l').
Proof.
  apply (proj2 (missing_id_aborts_load reg_missing_id pkg_missing_id CStyle
                  (PTree "Style" [PLeaf "name" "Clean"]) (or_introl eq_refl)
                  (fun l => eq_refl) (or_introl eq_refl) eq_refl)).
Defined.

(** C9: a second non-override definition of an id already collected in the
    category is reported and dropped without raising, and the record of the
    first one stays unchanged through every later step of the collection. *)
Theorem duplicate_original_dropped zip pak disp ld n c node id r l :
  pget_opt node "id" = Some (PVStr id) ->
  pv_eqb (pget_def node "overrideOrig" (PVStr "0")) "1" = false ->
  get id (obj ld c) = Some r ->
  collect_one zip pak disp (ld, n) c node l =
    (Ok (ld, S n), l ++ [("ERROR! " ++ dq ++ id ++ dq ++ " defined twice!")%string]) /\
  (forall ld1 n1 c1 node1 l1 ld2 n2 l2,
     get id (obj ld1 c) = Some r ->
     collect_one zip pak disp (ld1, n1) c1 node1 l1 = (Ok (ld2, n2), l2) ->
     get id (obj ld2 c) = Some r) /\
  (forall packages ld' n' l', collect_all packages ld l = (Ok (ld', n'), l') ->
     get id (obj ld' c) = Some r).
Proof.
  intros Hid Hsub Hr. split; [|split].
  - unfold collect_one, bind, pget, find_key, print. unfold pget_opt in Hid.
    destruct (find_key_opt (pchildren node) "id") as [p|]; simpl in Hid; [|discriminate].
    injection Hid as Hp. simpl. rewrite Hp. simpl.
    assert (Hm : mem id (obj ld c) = true) by (apply mem_get; eauto).
    rewrite Hm, Hsub. reflexivity.
  - intros ld1 n1 c1 node1 l1 ld2 n2 l2 H1 H2. eapply collect_one_keeps; eauto.
  - intros packages ld' n' l' H. eapply collect_all_keeps; eauto.
Qed.

Lemma duplicate_original_dropped_witness :
  exists ld, outcome (collect_all reg_dup ld_sky) = Ok (ld, 2) /\
    get "sky1" (obj ld CSkybox) =
      Some {| oe_zip := empty_zip; oe_node := sky_original; oe_pak_id := "base";
              oe_disp := "base" |}.
Proof.
  destruct (collect_all reg_dup ld_sky []) as [[[ld n]|e] l] eqn:E;
    [|vm_compute in E; discriminate].
  exists ld. assert (Hn : n = 2) by (vm_compute in E; congruence). subst n.
  split; [unfold outcome; now rewrite E|].
  apply (proj2 (proj2 (duplicate_original_dropped empty_zip "base" "base" ld_sky 1 CSkybox
                         sky_duplicate "sky1" _ [] eq_refl eq_refl eq_refl))
           reg_dup ld 2 l).
  exact E.
Defined.

End CollectClaims.

(** ** Claims on [Item.parse] *)

Module ItemClaims.

(** C10: an item definition with no [version] block makes [Item.parse]
    raise [IndexError] (from [versions[0]] in [Item.__init__]); so every
    item [Item.parse] returns has at least one version. *)
Theorem item_parse_needs_version zip id info :
  (find_all (pchildren info) "version" = [] ->
   forall l, Item_parse zip id info l = (Err IndexError, l)) /\
  (forall l it l', Item_parse zip id info l = (Ok it, l') -> versions it <> []).
Proof.
  split.
  - intros H l. unfold Item_parse. rewrite H. reflexivity.
  - intros l it l'. unfold Item_parse, bind.
    destruct (for_each _ _ _ l) as [[[vs folders]|e] l1]; [|discriminate].
    destruct (load_folders zip folders l1) as [[folders'|e] l2]; [|discriminate].
    destruct (for_each _ _ _ l2) as [[vs'|e] l3]; [|discriminate].
    unfold Item_init, raise, ret. destruct vs' as [|v vs'']; [discriminate|].
    intros H; injection H as <- _. simpl. discriminate.
Qed.

Lemma item_parse_needs_version_witness :
  Item_parse empty_zip "widget" item_info_empty [] = (Err IndexError, []).
Proof. exact (proj1 (item_parse_needs_version empty_zip "widget" item_info_empty) eq_refl []). Defined.

(** C5 (code bug): with two versions using folders [f1] and [f2] for style
    [A], the first version's [def_style] becomes the data of [f2], the
    folder of the last version, while its [styles] entry for [A] is the
    data of [f1]. *)
Theorem item_parse_def_style_of_last_version :
  match outcome (Item_parse item_zip "widget" item_info) with
  | Ok it =>
      match versions it with
      | v1 :: v2 :: _ =>
          (match v_def_style v1 with VFolder f => fd_auth f | _ => [] end) = ["Bob"] /\
          (match ODict.get "A" (v_styles v1) with Some (VFolder f) => fd_auth f | _ => [] end)
            = ["Alice"] /\
          (match v_def_style v2 with VFolder f => fd_auth f | _ => [] end) = ["Bob"]
      | _ => False
      end
  | Err _ => False
  end.
Proof. vm_compute. split; [reflexivity|split; reflexivity]. Qed.

End ItemClaims.

(** ** Claims on the configuration files of the category parsers *)

Module ParserClaims.

Lemma pget_some node key v l :
  pget_opt node key = Some v -> pget node key l = (Ok v, l).
Proof.
  unfold pget_opt, pget, find_key, bind, ret.
  destruct (find_key_opt (pchildren node) key); simpl; congruence.
Qed.

Lemma selitem_ok info name a l :
  pget_opt info "name" = Some (PVStr name) ->
  pget_def info "authors" (PVStr "") = PVStr a ->
  exists si, get_selitem_data info l = (Ok si, l) /\ si_name si = PVStr name.
Proof.
  intros Hn Ha. unfold get_selitem_data, bind at 1. rewrite Ha. simpl.
  unfold bind. rewrite (pget_some _ _ _ l Hn). simpl. eexists; split; reflexivity.
Qed.

(** C7 (counterexample): a voice pack whose [voice/<file>.voice] entry is
    not in the archive makes [Voice.parse] raise. *)
Lemma voice_missing_file_raises :
  outcome (Voice_parse empty_zip "cave" voice_node) = Err (KeyError "voice/cave.voice").
Proof. reflexivity. Qed.

(** C7 (amended): when the configuration entry looked for is absent from
    the archive, [Skybox.parse] (entry [skybox/<name>.cfg], for a non-empty
    [config] field) logs ["<name>.cfg not in zip!"], and [Goo.parse]
    ([goo/<config>]) and [Music.parse] ([music/<config>]) log nothing; all
    three return an object with an empty configuration.  [Voice.parse]
    raises [KeyError] when [voice/<file>.voice] is absent.  (Definitions
    with a string [name], string or absent [authors], string or absent
    [config], and for music an [instance].) *)
Theorem config_absent_behaviour zip id info name a l :
  pget_opt info "name" = Some (PVStr name) ->
  pget_def info "authors" (PVStr "") = PVStr a ->
  (forall c, pget_def info "config" (PVStr "") = PVStr c -> c <> "" ->
     in_files ("skybox/" ++ name ++ ".cfg") (namelist zip) = false ->
     exists sk, Skybox_parse zip id info l = (Ok sk, l ++ [(name ++ ".cfg not in zip!")%string])
                /\ sk_config sk = []) /\
  (forall c, pget_def info "config" (PVStr "") = PVStr c ->
     in_files ("goo/" ++ c) (namelist zip) = false ->
     exists g, Goo_parse zip id info l = (Ok g, l) /\ go_config g = []) /\
  (forall c inst, pget_def info "config" (PVStr "") = PVStr c ->
     pget_opt info "instance" = Some inst ->
     in_files ("music/" ++ c) (namelist zip) = false ->
     exists mu, Music_parse zip id info l = (Ok mu, l) /\ mu_config mu = []) /\
  (forall f, pget_opt info "file" = Some (PVStr f) ->
     in_files ("voice/" ++ f ++ ".voice") (namelist zip) = false ->
     Voice_parse zip id info l = (Err (KeyError ("voice/" ++ f ++ ".voice")), l)).
Proof.
  intros Hn Ha. destruct (selitem_ok info name a l Hn Ha) as [si [Hsi Hname]].
  split; [|split; [|split]].
  - intros c Hc Hne Hf. unfold Skybox_parse, bind at 1. rewrite Hsi.
    rewrite Hc. unfold pv_eqb. apply String.eqb_neq in Hne. rewrite Hne.
    unfold bind, as_str, print. rewrite Hname. simpl. simpl in Hf; rewrite Hf. simpl. eexists; split; reflexivity.
  - intros c Hc Hf. unfold Goo_parse, bind at 1. rewrite Hsi.
    unfold bind, as_str. rewrite Hc. simpl. simpl in Hf; rewrite Hf. simpl. eexists; split; reflexivity.
  - intros c inst Hc Hi Hf. unfold Music_parse, bind at 1. rewrite Hsi.
    unfold bind at 1. rewrite (pget_some _ _ _ l Hi).
    unfold bind, as_str. rewrite Hc. simpl. simpl in Hf; rewrite Hf. simpl. eexists; split; reflexivity.
  - intros f Hfile Hf. unfold Voice_parse, bind at 1. rewrite Hsi.
    unfold bind at 1. rewrite (pget_some _ _ _ l Hfile).
    unfold bind, as_str, zip_parse. simpl. simpl in Hf; rewrite Hf. reflexivity.
Qed.

Lemma config_absent_behaviour_witness :
  Voice_parse empty_zip "cave" voice_node [] = (Err (KeyError "voice/cave.voice"), []) /\
  (exists sk, Skybox_parse empty_zip "sky1" skybox_node [] = (Ok sk, ["Sky.cfg not in zip!"])
              /\ sk_config sk = []) /\
  (exists g, Goo_parse empty_zip "toxic" goo_node [] = (Ok g, []) /\ go_config g = []).
Proof.
  split; [|split].
  - exact (proj2 (proj2 (proj2 (config_absent_behaviour empty_zip "cave" voice_node "Cave" ""
             [] eq_refl eq_refl))) "cave" eq_refl eq_refl).
  - exact (proj1 (config_absent_behaviour empty_zip "sky1" skybox_node "Sky" "" [] eq_refl eq_refl)
             "sky" eq_refl ltac:(discriminate) eq_refl).
  - exact (proj1 (proj2 (config_absent_behaviour empty_zip "toxic" goo_node "Toxic" "" []
             eq_refl eq_refl)) "toxic.cfg" eq_refl eq_refl).
Defined.

(** C6 (code bug): [Skybox.add_over] raises [NameError] for every original
    and override, while [Goo.add_over], [Music.add_over] and
    [StyleVar.add_over] append the override's lists and return. *)
Theorem add_over_behaviour :
  (forall self over zip l, Skybox_add_over self over zip l = (Err (NameError "sky"), l)) /\
  (forall self over zip l, exists g, Goo_add_over self over zip l = (Ok g, l) /\
     go_auth g = go_auth self ++ go_auth over /\ go_config g = go_config self ++ go_config over) /\
  (forall self over zip l, exists mu, Music_add_over self over zip l = (Ok mu, l) /\
     mu_auth mu = mu_auth self ++ mu_auth over /\ mu_config mu = mu_config self ++ mu_config over) /\
  (forall self over zip l, exists sv, StyleVar_add_over self over zip l = (Ok sv, l) /\
     sv_styles sv = sv_styles self ++ sv_styles over).
Proof.
  split; [|split; [|split]]; intros self over zip l;
    [reflexivity|eexists; split; [reflexivity|split; reflexivity]..].
Qed.

End ParserClaims.

(** * Further properties of the code *)

Module StringFacts.

Lemma split_on_cons d s : exists r rs, split_on d s = r :: rs.
Proof.
  destruct s as [|c s]; simpl; [eauto|].
  destruct (Ascii.eqb c d); [eauto|]. destruct (split_on d s); eauto.
Qed.

Lemma split_on_app d s1 s2 :
  split_on d (s1 ++ String d s2) = split_on d s1 ++ split_on d s2.
Proof.
  induction s1 as [|c s1 IH]; simpl.
  - now rewrite Ascii.eqb_refl.
  - rewrite IH. destruct (Ascii.eqb c d); [reflexivity|].
    destruct (split_on_cons d s1) as [r [rs ->]]. reflexivity.
Qed.

(** A string without the delimiter is its own only piece. *)
Lemma split_on_single_tail d c t :
  split_on d (String c t) = [String c t] -> Ascii.eqb c d = false /\ split_on d t = [t].
Proof.
  simpl. destruct (Ascii.eqb c d).
  - destruct (split_on_cons d t) as [r [rs ->]]. discriminate.
  - destruct (split_on_cons d t) as [r [rs E]]. rewrite E.
    intros H; injection H as -> ->. auto.
Qed.

Lemma split_on_single_cons d c t :
  Ascii.eqb c d = false -> split_on d t = [t] -> split_on d (String c t) = [String c t].
Proof. intros Hc Ht. simpl. now rewrite Hc, Ht. Qed.

Lemma split_on_pieces d s p : In p (split_on d s) -> split_on d p = [p].
Proof.
  revert p; induction s as [|c s IH]; simpl; intros p Hp.
  - destruct Hp as [<- | []]; reflexivity.
  - destruct (Ascii.eqb c d) eqn:Ec.
    + destruct Hp as [<- | Hp]; [reflexivity|auto].
    + destruct (split_on_cons d s) as [r [rs E]]. rewrite E in Hp.
      destruct Hp as [<- | Hp].
      * apply split_on_single_cons; [exact Ec|apply IH; rewrite E; now left].
      * apply IH. rewrite E; now right.
Qed.

Lemma lstrip_single d p : split_on d p = [p] -> split_on d (lstrip p) = [lstrip p].
Proof.
  induction p as [|c p IH]; simpl; intros H; [reflexivity|].
  destruct (is_space c); [|exact H].
  apply IH, (split_on_single_tail d c p H).
Qed.

Lemma rstrip_single d p : split_on d p = [p] -> split_on d (rstrip p) = [rstrip p].
Proof.
  induction p as [|c p IH]; intros H; [reflexivity|].
  destruct (split_on_single_tail d c p H) as [Hc Hp].
  simpl. destruct (rstrip p) as [|c2 r] eqn:E.
  - destruct (is_space c); [reflexivity|].
    apply split_on_single_cons; [exact Hc|reflexivity].
  - apply split_on_single_cons; [exact Hc|]. now apply IH.
Qed.

Lemma rstrip_cons c t :
  rstrip (String c t) =
  match rstrip t with
  | EmptyString => if is_space c then EmptyString else String c EmptyString
  | _ => String c (rstrip t)
  end.
Proof. reflexivity. Qed.

Lemma rstrip_idem s : rstrip (rstrip s) = rstrip s.
Proof.
  induction s as [|c s IH]; [reflexivity|].
  rewrite (rstrip_cons c s). destruct (rstrip s) as [|c2 r] eqn:E.
  - destruct (is_space c) eqn:Es; [reflexivity|]. simpl. now rewrite Es.
  - rewrite rstrip_cons, IH. reflexivity.
Qed.

Lemma lstrip_rstrip_head c t :
  is_space c = false -> lstrip (rstrip (String c t)) = rstrip (String c t).
Proof.
  intros Hc. rewrite rstrip_cons. destruct (rstrip t); [rewrite Hc|]; simpl; rewrite Hc; reflexivity.
Qed.

Lemma lstrip_head s : lstrip s = EmptyString \/ exists c t, lstrip s = String c t /\ is_space c = false.
Proof.
  induction s as [|c s IH]; simpl; [auto|].
  destruct (is_space c) eqn:E; [exact IH|right; eauto].
Qed.

Lemma strip_idem s : strip (strip s) = strip s.
Proof.
  unfold strip. destruct (lstrip_head s) as [-> | [c [t [-> Hc]]]]; [reflexivity|].
  rewrite lstrip_rstrip_head by exact Hc. apply rstrip_idem.
Qed.

Lemma strip_single d p : split_on d p = [p] -> split_on d (strip p) = [strip p].
Proof. intros H. apply rstrip_single, lstrip_single, H. Qed.

End StringFacts.

Module StringExtras.
Import StringFacts.

(** Every value returned by [sep_values(str, delimiter)] is a fixed point of
    [sep_values]: it is non-empty, has no surrounding whitespace and holds
    no delimiter. *)
Theorem sep_values_tokens s d x :
  In x (sep_values s d) -> sep_values x d = [x].
Proof.
  unfold sep_values. intros Hx.
  apply filter_In in Hx as [Hx Hne]. apply in_map_iff in Hx as [p [<- Hp]].
  rewrite (strip_single d p (split_on_pieces d s p Hp)). simpl.
  rewrite strip_idem, Hne. reflexivity.
Qed.

(** [sep_values] of two texts joined by the delimiter is the concatenation
    of their values. *)
Theorem sep_values_app s1 s2 d :
  sep_values (s1 ++ String d s2) d = sep_values s1 d ++ sep_values s2 d.
Proof. unfold sep_values. now rewrite split_on_app, map_app, filter_app. Qed.

End StringExtras.

Module ParserFacts.

Lemma str_app_assoc (a b c : string) : ((a ++ b) ++ c)%string = (a ++ (b ++ c))%string.
Proof. induction a as [|x a IH]; simpl; [reflexivity|now rewrite IH]. Qed.

Lemma casefold_char_idem c :
  let f := fun c => let n := nat_of_ascii c in
                    if (Nat.leb 65 n) && (Nat.leb n 90) then ascii_of_nat (n + 32) else c in
  f (f c) = f c.
Proof.
  intros f. unfold f. destruct ((Nat.leb 65 (nat_of_ascii c)) && (Nat.leb (nat_of_ascii c) 90)) eqn:E.
  - apply andb_true_iff in E as [E0 E]. apply Nat.leb_le in E0. apply Nat.leb_le in E.
    rewrite nat_ascii_embedding by lia.
    replace (Nat.leb (nat_of_ascii c + 32) 90) with false by (symmetry; apply Nat.leb_gt; lia).
    now rewrite andb_false_r.
  - now rewrite E.
Qed.

Lemma casefold_idem s : casefold (casefold s) = casefold s.
Proof.
  unfold casefold. rewrite list_ascii_of_string_of_list_ascii, map_map.
  f_equal. apply map_ext. intros c. apply casefold_char_idem.
Qed.

Lemma pget_opt_def node key d :
  pget_def node key d = match pget_opt node key with Some v => v | None => d end.
Proof. unfold pget_def, pget_opt. destruct (find_key_opt _ _); reflexivity. Qed.

Lemma pget_none node key l :
  pget_opt node key = None -> pget node key l = (Err (NoKeyError key), l).
Proof.
  unfold pget_opt, pget, find_key, bind, raise.
  destruct (find_key_opt (pchildren node) key); simpl; congruence.
Qed.

Lemma pget_some' node key v l :
  pget_opt node key = Some v -> pget node key l = (Ok v, l).
Proof.
  unfold pget_opt, pget, find_key, bind, ret.
  destruct (find_key_opt (pchildren node) key); simpl; congruence.
Qed.

Lemma selitem_eq info a nm l :
  pget_def info "authors" (PVStr "") = PVStr a ->
  pget_opt info "name" = Some nm ->
  get_selitem_data info l =
    (Ok {| si_name := nm; si_short_name := pget_opt info "shortName";
           si_auth := sep_values a ","; si_icon := pget_def info "icon" (PVStr "_blank");
           si_desc := desc_parse info |}, l).
Proof.
  intros Ha Hn. unfold get_selitem_data, bind at 1. rewrite Ha. simpl.
  unfold bind. rewrite (pget_some' _ _ _ l Hn). reflexivity.
Qed.

Lemma selitem_split info ps l :
  pget_def info "authors" (PVStr "") = PVList ps ->
  get_selitem_data info l = (Err (AttributeError "split"), l).
Proof. intros Ha. unfold get_selitem_data, bind. rewrite Ha. reflexivity. Qed.

Lemma selitem_noname info a l :
  pget_def info "authors" (PVStr "") = PVStr a ->
  pget_opt info "name" = None ->
  get_selitem_data info l = (Err (NoKeyError "name"), l).
Proof.
  intros Ha Hn. unfold get_selitem_data, bind at 1. rewrite Ha. simpl.
  unfold bind. rewrite (pget_none _ _ l Hn). reflexivity.
Qed.

End ParserFacts.

Module ParserExtras.
Import ParserFacts.

(** The labels of [desc_parse] are case-folded: [line] for a description
    given as a single value, the case-folded child name otherwise. *)
Theorem desc_parse_labels_folded info k v :
  In (k, v) (desc_parse info) -> casefold k = k.
Proof.
  unfold desc_parse. intros H. apply in_flat_map in H as [p [_ Hp]].
  destruct (has_children p).
  - apply in_map_iff in Hp as [q [Hq _]]. injection Hq as <- _. apply casefold_idem.
  - destruct Hp as [Hp | []]. injection Hp as <- _. reflexivity.
Qed.

(** [Style.parse] with a name, a string [authors], a string [folder] and
    the entry [styles/<folder>/items.txt] present: the editor data is that
    entry; an absent or empty [shortName] gives the name as short name; an
    absent or ["NONE"] [base] gives no base style; an absent
    [vbsp_config.cfg] gives an empty [ItemData] block; an absent
    [suggested] block gives four empty suggestions. *)
Theorem style_parse_defaults zip id info a nm f l :
  pget_def info "authors" (PVStr "") = PVStr a ->
  pget_opt info "name" = Some nm ->
  pget_opt info "folder" = Some (PVStr f) ->
  in_files ("styles/" ++ f ++ "/items.txt") (namelist zip) = true ->
  exists sd, Style_parse zip id info l = (Ok sd, l) /\
    sd_editor sd = parse_entry zip ("styles/" ++ f ++ "/items.txt") /\
    ((pget_opt info "shortName" = None \/ pget_opt info "shortName" = Some (PVStr "")) ->
       sd_short_name sd = nm) /\
    ((pget_opt info "base" = None \/ pget_opt info "base" = Some (PVStr "NONE")) ->
       sd_base_style sd = None) /\
    (in_files ("styles/" ++ f ++ "/vbsp_config.cfg") (namelist zip) = false ->
       sd_config sd = PTree "ItemData" []) /\
    (find_key_opt (pchildren info) "suggested" = None ->
       sd_suggested sd = (PVStr "", PVStr "", PVStr "", PVStr "")).
Proof.
  intros Ha Hn Hf Hi. unfold Style_parse, bind at 1. rewrite (selitem_eq info a nm l Ha Hn).
  unfold bind at 1. rewrite (pget_some' _ _ _ l Hf).
  unfold bind, as_str, ret at 1, zip_parse. rewrite str_app_assoc, Hi.
  eexists; split; [reflexivity|].
  cbn [sd_editor sd_short_name sd_base_style sd_config sd_suggested si_name si_short_name].
  split; [reflexivity|split; [|split; [|split]]].
  - intros [H|H]; rewrite H; reflexivity.
  - intros H. rewrite pget_opt_def. destruct H as [H|H]; rewrite H; reflexivity.
  - intros H. rewrite str_app_assoc, H. reflexivity.
  - intros H. unfold find_key_def. rewrite H. reflexivity.
Qed.

(** [Style.parse] fails on its inputs in this order: the common data
    ([name]), then [folder] (missing: [NoKeyError]; a block: [TypeError]),
    then the entry [styles/<folder>/items.txt] (absent: [KeyError]). *)
Theorem style_parse_errors zip id info a nm l :
  pget_def info "authors" (PVStr "") = PVStr a ->
  (pget_opt info "name" = None -> Style_parse zip id info l = (Err (NoKeyError "name"), l)) /\
  (pget_opt info "name" = Some nm ->
   (pget_opt info "folder" = None -> Style_parse zip id info l = (Err (NoKeyError "folder"), l)) /\
   (forall ps, pget_opt info "folder" = Some (PVList ps) ->
      Style_parse zip id info l = (Err TypeError, l)) /\
   (forall f, pget_opt info "folder" = Some (PVStr f) ->
      in_files ("styles/" ++ f ++ "/items.txt") (namelist zip) = false ->
      Style_parse zip id info l = (Err (KeyError ("styles/" ++ f ++ "/items.txt")), l))).
Proof.
  intros Ha. split.
  - intros Hn. unfold Style_parse, bind at 1. now rewrite (selitem_noname info a l Ha Hn).
  - intros Hn. split; [|split]; [intros Hf|intros ps Hf|intros f Hf Hi];
      unfold Style_parse, bind at 1; rewrite (selitem_eq info a nm l Ha Hn);
      cbv beta iota; unfold bind at 1.
    + now rewrite (pget_none _ _ l Hf).
    + now rewrite (pget_some' _ _ _ l Hf).
    + rewrite (pget_some' _ _ _ l Hf).
      unfold bind, as_str, ret at 1, zip_parse. rewrite str_app_assoc, Hi. reflexivity.
Qed.

(** A definition whose [authors] is a block is rejected with
    [AttributeError] by the parsers of styles, voice packs, skyboxes, goo
    and music, which all start with [get_selitem_data]; [StyleVar.parse]
    does not read [authors] and still succeeds when [name] is present. *)
Theorem authors_block_rejected info ps :
  pget_def info "authors" (PVStr "") = PVList ps ->
  forall zip id l,
  Style_parse zip id info l = (Err (AttributeError "split"), l) /\
  Voice_parse zip id info l = (Err (AttributeError "split"), l) /\
  Skybox_parse zip id info l = (Err (AttributeError "split"), l) /\
  Goo_parse zip id info l = (Err (AttributeError "split"), l) /\
  Music_parse zip id info l = (Err (AttributeError "split"), l) /\
  (forall nm, pget_opt info "name" = Some nm ->
     exists sv, StyleVar_parse zip id info l = (Ok sv, l)).
Proof.
  intros Ha zip id l. pose proof (selitem_split info ps l Ha) as H.
  split; [|split; [|split; [|split; [|split]]]];
    try (unfold Style_parse, Voice_parse, Skybox_parse, Goo_parse, Music_parse, bind at 1;
         rewrite H; reflexivity).
  intros nm Hn. unfold StyleVar_parse, bind. rewrite (pget_some' _ _ _ l Hn).
  eexists; reflexivity.
Qed.

(** [Skybox.parse] tests for [skybox/<name>.cfg] but opens the entry named
    [<name>]: when the tested entry is present, the configuration is the
    parse of entry [<name>], and [KeyError] is raised when [<name>] itself is
    not an entry. *)
Theorem skybox_opens_name zip id info a name c l :
  pget_def info "authors" (PVStr "") = PVStr a ->
  pget_opt info "name" = Some (PVStr name) ->
  pget_def info "config" (PVStr "") = PVStr c -> c <> "" ->
  in_files ("skybox/" ++ name ++ ".cfg") (namelist zip) = true ->
  (in_files name (namelist zip) = false ->
     Skybox_parse zip id info l = (Err (KeyError name), l)) /\
  (in_files name (namelist zip) = true ->
     exists sk, Skybox_parse zip id info l = (Ok sk, l) /\ sk_config sk = parse_entry zip name).
Proof.
  intros Ha Hn Hc Hne Hf. apply String.eqb_neq in Hne. simpl in Hf.
  split; intros Hm; unfold Skybox_parse, bind at 1;
    rewrite (selitem_eq info a (PVStr name) l Ha Hn), Hc; cbv beta iota;
    unfold pv_eqb; rewrite Hne; unfold bind, as_str; cbn [si_name]; simpl; rewrite Hf;
    unfold zip_parse; rewrite Hm; [reflexivity|eexists; split; reflexivity].
Qed.

(** An empty [shortName] is kept as the short name by [Goo.parse] and
    [Skybox.parse], while [Style.parse] replaces it with the name. *)
Theorem short_name_empty_contrast zip id info a nm f l :
  pget_def info "authors" (PVStr "") = PVStr a ->
  pget_opt info "name" = Some nm ->
  pget_opt info "shortName" = Some (PVStr "") ->
  pget_def info "config" (PVStr "") = PVStr "" ->
  pget_opt info "folder" = Some (PVStr f) ->
  in_files ("styles/" ++ f ++ "/items.txt") (namelist zip) = true ->
  (exists g, Goo_parse zip id info l = (Ok g, l) /\ go_short_name g = PVStr "") /\
  (exists sk, Skybox_parse zip id info l = (Ok sk, l) /\ sk_short_name sk = PVStr "") /\
  (exists sd, Style_parse zip id info l = (Ok sd, l) /\ sd_short_name sd = nm).
Proof.
  intros Ha Hn Hs Hc Hf Hi. split; [|split].
  - unfold Goo_parse, bind at 1. rewrite (selitem_eq info a nm l Ha Hn).
    unfold bind, as_str. rewrite Hc. simpl. rewrite Hs.
    destruct (in_files "goo/" (namelist zip)) eqn:E; unfold zip_parse; [rewrite E|];
      unfold ret; eexists; split; reflexivity.
  - unfold Skybox_parse, bind at 1. rewrite (selitem_eq info a nm l Ha Hn). rewrite Hc.
    simpl. eexists; split; [reflexivity|]. simpl. now rewrite Hs.
  - unfold Style_parse, bind at 1. rewrite (selitem_eq info a nm l Ha Hn).
    unfold bind at 1. rewrite (pget_some' _ _ _ l Hf).
    unfold bind, as_str, ret at 1, zip_parse. rewrite str_app_assoc, Hi.
    eexists; split; [reflexivity|].
    cbn [sd_short_name si_name si_short_name]. rewrite Hs. reflexivity.
Qed.

(** Required keys after the common data: [Voice.parse] raises
    [NoKeyError] without [file], and [Music.parse] without [instance]. *)
Theorem parsers_required_keys zip id info a nm l :
  pget_def info "authors" (PVStr "") = PVStr a ->
  pget_opt info "name" = Some nm ->
  (pget_opt info "file" = None -> Voice_parse zip id info l = (Err (NoKeyError "file"), l)) /\
  (pget_opt info "instance" = None ->
     Music_parse zip id info l = (Err (NoKeyError "instance"), l)).
Proof.
  intros Ha Hn. split; intros H.
  - unfold Voice_parse, bind at 1. rewrite (selitem_eq info a nm l Ha Hn).
    unfold bind at 1. now rewrite (pget_none _ _ l H).
  - unfold Music_parse, bind at 1. rewrite (selitem_eq info a nm l Ha Hn).
    unfold bind at 1. now rewrite (pget_none _ _ l H).
Qed.

End ParserExtras.

Module TreeFacts.
Import ODict ODictFacts StyleTree Resolve.

Lemma fold_resolve_keys es v k x :
  get k (v_styles (fold_left resolve_style es v)) = Some x ->
  get k (v_styles v) = Some x \/ In k (map fst es).
Proof.
  revert v; induction es as [|[k' [s bs]] es IH]; cbn [fold_left map fst In]; intros v H.
  - now left.
  - destruct (IH _ H) as [H1 | H1]; [|right; right; exact H1].
    rewrite resolve_style_styles in H1.
    destruct (mem k' (v_styles v)); [now left|].
    destruct (String.eqb k k') eqn:E.
    + apply String.eqb_eq in E; subst. right; now left.
    + apply String.eqb_neq in E. rewrite get_set_neq in H1 by exact E. now left.
Qed.

Lemma fold_resolve_keep es v k x :
  get k (v_styles v) = Some x -> get k (v_styles (fold_left resolve_style es v)) = Some x.
Proof.
  revert v; induction es as [|[k' [s bs]] es IH]; cbn [fold_left]; intros v H; [exact H|].
  apply IH. rewrite resolve_style_styles. destruct (mem k' (v_styles v)) eqn:Em; [exact H|].
  destruct (String.eqb k k') eqn:E.
  - apply String.eqb_eq in E; subst.
    assert (mem k' (v_styles v) = true) by (apply mem_get; eauto). congruence.
  - apply String.eqb_neq in E. now rewrite get_set_neq by exact E.
Qed.

Lemma fold_resolve_fields es v :
  v_name (fold_left resolve_style es v) = v_name v /\
  v_is_beta (fold_left resolve_style es v) = v_is_beta v /\
  v_is_dep (fold_left resolve_style es v) = v_is_dep v /\
  v_def_style (fold_left resolve_style es v) = v_def_style v.
Proof.
  revert v; induction es as [|[k [s bs]] es IH]; cbn [fold_left]; intros v; [auto|].
  destruct (IH (resolve_style v (k, (s, bs)))) as [H1 [H2 [H3 H4]]].
  rewrite H1, H2, H3, H4. unfold resolve_style.
  destruct (mem k (v_styles v)); [auto|].
  destruct (scan_bases bs (v_styles v)); simpl; auto.
Qed.

Lemma fold_resolve_complete es v :
  (forall k, In k (map fst es) -> mem k (v_styles v) = true) ->
  fold_left resolve_style es v = v.
Proof.
  revert v; induction es as [|[k [s bs]] es IH]; cbn [fold_left map fst In]; intros v H;
    [reflexivity|].
  unfold resolve_style at 2. rewrite (H k (or_introl eq_refl)).
  apply IH. intros k' Hk'. apply H. now right.
Qed.

Lemma resolve_version_idem idx v :
  resolve_version idx (resolve_version idx v) = resolve_version idx v.
Proof.
  unfold resolve_version. apply fold_resolve_complete.
  intros k Hk. apply fold_resolve_mem. now right.
Qed.

Lemma style_index_app ss x :
  style_index (ss ++ [x]) = set (sty_id x) x (style_index ss).
Proof. unfold style_index. now rewrite fold_left_app. Qed.

Lemma style_index_skip post d k :
  Forall (fun s' => sty_id s' <> k) post ->
  get k (fold_left (fun d s => set (sty_id s) s d) post d) = get k d.
Proof.
  revert d; induction post as [|y post IH]; cbn [fold_left]; intros d H; [reflexivity|].
  inversion H as [|? ? Hy Hpost]; subst.
  rewrite IH by exact Hpost. apply get_set_neq. auto.
Qed.

Lemma base_loop_rank ss (rank : string -> nat) :
  (forall s b, get (sty_id s) (style_index ss) = Some s ->
     styles_get (style_index ss) (base_style s) = Some b -> rank (sty_id b) < rank (sty_id s)) ->
  forall f s acc, get (sty_id s) (style_index ss) = Some s -> rank (sty_id s) + 2 <= f ->
  exists r, base_loop f (style_index ss) (Some s) acc = Some r.
Proof.
  intros Hr f. induction f as [|f IH]; intros s acc Hs Hf; [lia|].
  simpl. destruct (styles_get (style_index ss) (base_style s)) as [b|] eqn:Eb.
  - specialize (Hr s b Hs Eb). apply IH; [eapply stored_next; exact Eb|lia].
  - destruct f; [lia|]. simpl. eauto.
Qed.

Lemma with_bases_some f st vs :
  (forall k s, In (k, s) vs -> exists bs, style_bases f st s = Some bs) ->
  exists idx, with_bases f st vs = Some idx.
Proof.
  induction vs as [|[k s] vs IH]; simpl; intros H; [eauto|].
  destruct (H k s (or_introl eq_refl)) as [bs ->].
  destruct IH as [idx ->]; [intros; eapply H; right; eassumption|]. simpl; eauto.
Qed.

Lemma Forall2_map_self {A B} (R : A -> B -> Prop) (f : A -> B) l :
  (forall x, In x l -> R x (f x)) -> Forall2 R l (map f l).
Proof.
  induction l as [|x l IH]; simpl; intros H; constructor; auto.
Qed.

End TreeFacts.

Module TreeExtras.
Import ODict ODictFacts StyleTree Resolve StyleClaims TreeFacts.

(** [setup_style_tree] changes nothing but the [styles] mappings: every
    resulting item comes from an input item with the same id and
    [def_data], version by version with the same name, flags and
    [def_style]; every entry present before is kept with its value, and
    every entry added is keyed by a style id. *)
Theorem setup_style_tree_preserves fuel ss items idx items' :
  setup_style_tree fuel ss items = Some (idx, items') ->
  forall it', In it' items' -> exists it, In it items /\
    item_id it' = item_id it /\ def_data it' = def_data it /\
    Forall2 (fun v v' =>
      v_name v' = v_name v /\ v_is_beta v' = v_is_beta v /\ v_is_dep v' = v_is_dep v /\
      v_def_style v' = v_def_style v /\
      (forall k x, get k (v_styles v) = Some x -> get k (v_styles v') = Some x) /\
      (forall k x, get k (v_styles v') = Some x ->
         get k (v_styles v) = Some x \/ mem k (style_index ss) = true))
      (versions it) (versions it').
Proof.
  intros H it' Hit'. destruct (setup_style_tree_shape _ _ _ _ _ H) as [Hwb ->].
  apply in_map_iff in Hit' as [it [<- Hit]]. exists it.
  split; [exact Hit|split; [reflexivity|split; [reflexivity|]]].
  simpl. apply Forall2_map_self. intros v _. unfold resolve_version.
  destruct (fold_resolve_fields idx v) as [H1 [H2 [H3 H4]]].
  split; [exact H1|split; [exact H2|split; [exact H3|split; [exact H4|split]]]].
  - intros k x Hx. now apply fold_resolve_keep.
  - intros k x Hx. destruct (fold_resolve_keys _ _ _ _ Hx) as [Hk|Hk]; [now left|right].
    rewrite (with_bases_keys _ _ _ _ Hwb) in Hk.
    apply in_map_iff in Hk as [[k' s] [Hk' Hin]]; simpl in Hk'; subst k'.
    apply mem_get. exists s. apply In_get_NoDup; [apply style_index_NoDup|exact Hin].
Qed.

(** Running [setup_style_tree] again on the items it returned gives the same
    index and the same items: resolution is idempotent. *)
Theorem setup_style_tree_idempotent fuel ss items idx items' :
  setup_style_tree fuel ss items = Some (idx, items') ->
  setup_style_tree fuel ss items' = Some (idx, items').
Proof.
  intros H. destruct (setup_style_tree_shape _ _ _ _ _ H) as [Hwb ->].
  unfold setup_style_tree. rewrite Hwb. f_equal. f_equal.
  rewrite map_map. apply map_ext. intros it. unfold resolve_item. simpl.
  rewrite map_map. f_equal. apply map_ext. apply resolve_version_idem.
Qed.

(** The Style index [styles] maps an id to the last style of
    [data['Style']] with that id: [styles[style.id] = style] overwrites. *)
Theorem style_index_last_wins ss k s :
  get k (style_index ss) = Some s <->
  exists pre post, ss = pre ++ s :: post /\ sty_id s = k /\
                   Forall (fun s' => sty_id s' <> k) post.
Proof.
  split.
  - induction ss as [|x ss IH] using rev_ind; [intros H; discriminate|].
    rewrite style_index_app. intros H.
    destruct (String.eqb k (sty_id x)) eqn:E.
    + apply String.eqb_eq in E; subst k. rewrite get_set_eq in H. injection H as <-.
      exists ss, []. split; [reflexivity|split; [reflexivity|constructor]].
    + apply String.eqb_neq in E. rewrite get_set_neq in H by exact E.
      destruct (IH H) as [pre [post [-> [Hid Hpost]]]].
      exists pre, (post ++ [x]). split; [now rewrite <- app_assoc|split; [exact Hid|]].
      apply Forall_app; split; [exact Hpost|constructor; [congruence|constructor]].
  - intros [pre [post [-> [Hid Hpost]]]]. unfold style_index.
    rewrite fold_left_app. cbn [fold_left]. rewrite style_index_skip by exact Hpost.
    subst k. apply get_set_eq.
Qed.

(** When a rank on style ids decreases from each style of the index to the
    style its [base_style] names (the base links have no cycle), every
    [while] loop ends and [setup_style_tree] returns. *)
Theorem setup_style_tree_terminates ss items (rank : string -> nat) :
  (forall s b, get (sty_id s) (style_index ss) = Some s ->
     styles_get (style_index ss) (base_style s) = Some b -> rank (sty_id b) < rank (sty_id s)) ->
  exists fuel r, setup_style_tree fuel ss items = Some r.
Proof.
  intros Hr.
  set (F := list_max (map (fun e => rank (fst e)) (style_index ss)) + 2).
  destruct (with_bases_some F (style_index ss) (style_index ss)) as [idx Hidx].
  - intros k s Hin.
    assert (Hs : get k (style_index ss) = Some s)
      by (apply In_get_NoDup; [apply style_index_NoDup|exact Hin]).
    assert (Hk : sty_id s = k) by (eapply style_index_key; exact Hs).
    assert (Hle : rank k <= list_max (map (fun e => rank (fst e)) (style_index ss))).
    { pose proof (proj1 (list_max_le (map (fun e => rank (fst e)) (style_index ss)) _)
                    (Nat.le_refl _)) as HF.
      rewrite Forall_forall in HF. apply HF. apply in_map_iff. exists (k, s); auto. }
    unfold style_bases. apply (base_loop_rank ss rank Hr); [now rewrite Hk|].
    unfold F. rewrite Hk. lia.
  - exists F, (idx, map (resolve_item idx) items). unfold setup_style_tree. now rewrite Hidx.
Qed.

End TreeExtras.

Module LoadFacts.
Import ODict ODictFacts Collect CollectClaims.

Lemma collect_one_inv zip pak disp ld n c0 node l ld' n' l' :
  collect_one zip pak disp (ld, n) c0 node l = (Ok (ld', n'), l') ->
  n' = S n /\ exists id, pget_opt node "id" = Some (PVStr id) /\
   ((mem id (obj ld c0) = false /\
     ld' = set_obj ld c0 (set id (new_entry zip pak disp node) (obj ld c0))) \/
    (mem id (obj ld c0) = true /\
     (ld' = ld \/
      (pv_eqb (pget_def node "overrideOrig" (PVStr "0")) "1" = true /\
       ld' = set_override ld c0 (OvList [(zip, node)]))))).
Proof.
  unfold collect_one, bind, pget, find_key, ret, raise, print, as_str, pget_opt.
  destruct (find_key_opt _ "id") as [p|]; simpl; [|discriminate].
  destruct (pvalue p) as [idv|] eqn:Ep; simpl; [|discriminate].
  destruct (mem idv (obj ld c0)) eqn:Emem.
  - destruct (pv_eqb _ "1") eqn:Es.
    + destruct (obj_override ld c0) as [d|lst] eqn:Eo; simpl.
      * destruct (mem idv d); simpl; [discriminate|].
        intros H; injection H as <- <- _. split; [reflexivity|].
        exists idv; split; [reflexivity|right; split; [exact Emem|right; auto]].
      * intros H; injection H as <- <- _. split; [reflexivity|].
        exists idv; split; [reflexivity|right; split; [exact Emem|right; auto]].
    + intros H; injection H as <- <- _. split; [reflexivity|].
      exists idv; split; [reflexivity|right; split; [exact Emem|auto]].
  - intros H; injection H as <- <- _. split; [reflexivity|].
    exists idv; split; [reflexivity|left; auto].
Qed.

Lemma get_set_obj ld c0 d c k :
  get k (obj (set_obj ld c0 d) c) = if cat_eqb c c0 then get k d else get k (obj ld c).
Proof. simpl. destruct (cat_eqb c c0); reflexivity. Qed.

Lemma count_nodes zip pak disp c nodes ld n l ld' n' l' :
  for_each nodes (ld, n) (fun st object => collect_one zip pak disp st c object) l =
    (Ok (ld', n'), l') -> n' = n + length nodes.
Proof.
  revert ld n l; induction nodes as [|x nodes IH]; cbn [for_each]; intros ld n l H.
  - unfold ret in H; injection H as _ <- _. simpl; lia.
  - unfold bind in H. destruct (collect_one _ _ _ _ _ _ l) as [[[ld1 n1]|e] l1] eqn:E;
      [|discriminate].
    destruct (collect_one_inv _ _ _ _ _ _ _ _ _ _ _ E) as [-> _].
    rewrite (IH _ _ _ H). simpl; lia.
Qed.

Lemma count_cats zip pak disp info cs ld n l ld' n' l' :
  for_each cs (ld, n) (fun st comp_type =>
    for_each (find_all info (cat_name comp_type)) st (fun st object =>
      collect_one zip pak disp st comp_type object)) l = (Ok (ld', n'), l') ->
  n' = n + list_sum (map (fun c => length (find_all info (cat_name c))) cs).
Proof.
  revert ld n l; induction cs as [|c cs IH]; cbn [for_each]; intros ld n l H.
  - unfold ret in H; injection H as _ <- _. simpl; lia.
  - unfold bind in H. destruct (for_each _ _ _ l) as [[[ld1 n1]|e] l1] eqn:E; [|discriminate].
    rewrite (count_nodes _ _ _ _ _ _ _ _ _ _ _ E) in H. rewrite (IH _ _ _ H). simpl; lia.
Qed.

Lemma prereqs_loop_missing packages pak ok pre rest v l :
  Forall (fun q => exists s, pvalue q = PVStr s /\ mem s packages = true) ok ->
  pvalue pre = PVStr v -> mem v packages = false ->
  prereqs_loop packages pak (ok ++ pre :: rest) l =
    (Ok false, l ++ [("Package " ++ dq ++ v ++ dq ++ " required for " ++ dq ++ pak ++ dq
                      ++ " - ignoring package!")%string]).
Proof.
  intros Hok Hpre Hv. induction Hok as [|q ok [s [Hq Hs]] _ IH]; simpl.
  - unfold bind, as_str. rewrite Hpre. simpl. rewrite Hv. reflexivity.
  - unfold bind at 1, as_str. rewrite Hq. simpl. rewrite Hs. exact IH.
Qed.

Lemma parse_package_inv (P : Loader -> Prop) packages ld zip info fname pak disp l ld' n' l' :
  (forall ld1 n1 c node l1 ld2 n2 l2, In node (find_all info (cat_name c)) -> P ld1 ->
     collect_one zip pak disp (ld1, n1) c node l1 = (Ok (ld2, n2), l2) -> P ld2) ->
  P ld ->
  parse_package packages ld zip info fname pak disp l = (Ok (ld', n'), l') -> P ld'.
Proof.
  intros Hstep HP. unfold parse_package, bind at 1.
  destruct (check_prereqs packages pak info l) as [[ok|e] l1]; [|discriminate].
  destruct ok; [|intros H; injection H as <- _ _; exact HP].
  intros H.
  refine (for_each_inv (fun st => P (fst st)) _ _ _ (ld, 0) l1 (ld', n') l' HP H).
  intros [ld1 n1] ct l2 [ld2 n2] l3 _ H1 H2.
  refine (for_each_inv (fun st => P (fst st)) _ _ _ (ld1, n1) l2 (ld2, n2) l3 H1 H2).
  intros [ld3 n3] node l4 [ld4 n4] l5 Hin H3 H4. eapply Hstep; eauto.
Qed.

Lemma collect_all_inv (P : Loader -> Prop) packages ld l ld' n' l' :
  (forall p ld1 l1 ld2 n2 l2, In p (map snd packages) -> P ld1 ->
     parse_package packages ld1 (pk_zip p) (pk_info p) (pk_name p) (pk_id p) (pk_disp p) l1
       = (Ok (ld2, n2), l2) -> P ld2) ->
  P ld -> collect_all packages ld l = (Ok (ld', n'), l') -> P ld'.
Proof.
  intros Hstep HP H. unfold collect_all in H.
  refine (for_each_inv (fun st => P (fst st)) _ _ _ (ld, 0) l (ld', n') l' HP H).
  intros [ld1 n1] p l1 [ld2 n2] l2 Hin H1 H2.
  unfold bind, print in H2.
  destruct (parse_package _ _ _ _ _ _ _ _) as [[[ld3 n3]|e] l3] eqn:E; [|discriminate].
  injection H2 as <- _ _. eapply Hstep; eauto.
Qed.

Lemma collect_one_shape zip pak disp ld n c0 node l ld' n' l' :
  override_shape ld ->
  collect_one zip pak disp (ld, n) c0 node l = (Ok (ld', n'), l') -> override_shape ld'.
Proof.
  intros HQ H. destruct (collect_one_inv _ _ _ _ _ _ _ _ _ _ _ H) as [_ [id [Hid Hcase]]].
  intros c. destruct Hcase as [[Hm ->] | [Hm [-> | [Hs ->]]]].
  - simpl. destruct (HQ c) as [Ho | [z [nd [id' [Ho [Hs' [Hid' Hm']]]]]]]; [now left|right].
    exists z, nd, id'. split; [exact Ho|split; [exact Hs'|split; [exact Hid'|]]].
    destruct (cat_eqb c c0) eqn:Ec; [|exact Hm'].
    apply cat_eqb_eq in Ec; subst c0. apply Resolve.mem_set_mono. exact Hm'.
  - apply HQ.
  - simpl. destruct (cat_eqb c c0) eqn:Ec.
    + apply cat_eqb_eq in Ec; subst c0. right. exists zip, node, id. auto.
    + apply HQ.
Qed.

Lemma load_object_err ld c acc e l :
  (exists lst, obj_override ld c = OvList lst) ->
  exists err l', load_object ld c acc e l = (Err err, l').
Proof.
  intros [lst Hl]. destruct e as [id od]. unfold load_object, bind, print, ov_get.
  rewrite Hl. cbv [raise]. eauto.
Qed.

Lemma load_objects_err ld c e l :
  (exists lst, obj_override ld c = OvList lst) -> In e (obj ld c) ->
  exists err l', load_objects ld l = (Err err, l').
Proof.
  intros Hl He. unfold load_objects.
  apply (for_each_err _ _ c (In_obj_types c)). intros data l1.
  unfold bind at 1.
  destruct (for_each_err (obj ld c) (load_object ld c) e He
              (fun acc l2 => load_object_err ld c acc e l2 Hl) [] l1) as [err [l2 ->]].
  eauto.
Qed.

Lemma bind_ok_inv {A B} (m : M A) (k : A -> M B) l b l' :
  bind m k l = (Ok b, l') -> exists a l1, m l = (Ok a, l1) /\ k a l1 = (Ok b, l').
Proof.
  unfold bind. destruct (m l) as [[a|e] l1]; [eauto|discriminate].
Qed.

Lemma load_entries_ok ld c es acc l objs l' :
  for_each es acc (load_object ld c) l = (Ok objs, l') ->
  exists res, objs = acc ++ res /\
    Forall2 (fun e lo => lo_pak_id lo = oe_pak_id (snd e) /\ lo_pak_name lo = oe_disp (snd e) /\
               exists la lb, parse_obj c (oe_zip (snd e)) (fst e) (oe_node (snd e)) la
                             = (Ok (lo_obj lo), lb)) es res.
Proof.
  revert acc l; induction es as [|[id od] es IH]; cbn [for_each]; intros acc l H.
  - unfold ret in H; injection H as <- _. exists []. split; [now rewrite app_nil_r|constructor].
  - apply bind_ok_inv in H as [acc1 [l1 [E H]]].
    destruct (IH _ _ H) as [res [-> Hres]].
    unfold load_object in E.
    apply bind_ok_inv in E as [u [l2 [_ E]]].
    apply bind_ok_inv in E as [u' [l3 [_ E]]].
    apply bind_ok_inv in E as [o [l4 [Ep E]]].
    apply bind_ok_inv in E as [u'' [l5 [_ E]]].
    unfold ret in E; injection E as <- _.
    exists ({| lo_obj := o; lo_pak_id := oe_pak_id od; lo_pak_name := oe_disp od |} :: res).
    split; [now rewrite <- app_assoc|]. constructor; [|exact Hres].
    simpl. split; [reflexivity|split; [reflexivity|eauto]].
Qed.

Lemma load_cats_ok ld cs acc l data l' :
  for_each cs acc (fun data c =>
    objs <- for_each (obj ld c) [] (load_object ld c) ;;
    ret (data ++ [(c, objs)])) l = (Ok data, l') ->
  exists res, data = acc ++ res /\ map fst res = cs /\
    forall c objs, In (c, objs) res -> exists la lb,
      for_each (obj ld c) [] (load_object ld c) la = (Ok objs, lb).
Proof.
  revert acc l; induction cs as [|c cs IH]; cbn [for_each]; intros acc l H.
  - unfold ret in H; injection H as <- _. exists []. split; [now rewrite app_nil_r|split; [reflexivity|]].
    intros _ _ [].
  - apply bind_ok_inv in H as [acc1 [l1 [E H]]].
    apply bind_ok_inv in E as [objs [l2 [E E']]].
    unfold ret in E'; injection E' as <- _.
    destruct (IH _ _ H) as [res [-> [Hk Hres]]].
    exists ((c, objs) :: res). split; [now rewrite <- app_assoc|split; [simpl; now rewrite Hk|]].
    intros c' objs' [Heq | Hin]; [injection Heq as <- <-; eauto|eauto].
Qed.

Lemma collect_all_shape packages l ld' n l' :
  collect_all packages init_loader l = (Ok (ld', n), l') -> override_shape ld'.
Proof.
  intros H.
  refine (collect_all_inv override_shape _ _ _ _ _ _ _ _ H); [|intros c; now left].
  intros p ld1 l1 ld2 n2 l2 _ HP Hpp.
  eapply (parse_package_inv override_shape); [|exact HP|exact Hpp].
  intros ld3 n3 c0 node l3 ld4 n4 l4 _ HP3 Hc. exact (collect_one_shape _ _ _ _ _ _ _ _ _ _ _ HP3 Hc).
Qed.

End LoadFacts.

Module LoadExtras.
Import ODict ODictFacts Collect CollectClaims LoadFacts.

Theorem parse_package_count packages ld zip info fname pak disp l l1 ld' n' l' :
  check_prereqs packages pak info l = (Ok true, l1) ->
  parse_package packages ld zip info fname pak disp l = (Ok (ld', n'), l') ->
  n' = list_sum (map (fun c => length (find_all info (cat_name c))) obj_types).
Proof.
  intros Hc H. unfold parse_package, bind at 1 in H. rewrite Hc in H.
  exact (count_cats _ _ _ _ _ _ _ _ _ _ _ H).
Qed.

Theorem parse_package_missing_prereq packages ld zip info fname pak disp p ok pre rest v l :
  find_key_opt info "Prerequisites" = Some p ->
  pvalue p = PVList (ok ++ pre :: rest) ->
  Forall (fun q => exists s, pvalue q = PVStr s /\ mem s packages = true) ok ->
  pvalue pre = PVStr v -> mem v packages = false ->
  parse_package packages ld zip info fname pak disp l =
    (Ok (ld, 0), l ++ [("Package " ++ dq ++ v ++ dq ++ " required for " ++ dq ++ pak ++ dq
                        ++ " - ignoring package!")%string]).
Proof.
  intros Hf Hp Hok Hpre Hv. unfold parse_package, bind at 1, check_prereqs.
  rewrite Hf, Hp, (prereqs_loop_missing _ _ _ _ _ _ _ Hok Hpre Hv). reflexivity.
Qed.

Theorem collect_all_provenance packages ld l ld' n l' :
  collect_all packages ld l = (Ok (ld', n), l') ->
  forall c k r, get k (obj ld' c) = Some r ->
    get k (obj ld c) = Some r \/ provenance packages c k r.
Proof.
  intros H.
  refine (collect_all_inv (fun ld1 => forall c k r, get k (obj ld1 c) = Some r ->
            get k (obj ld c) = Some r \/ provenance packages c k r) _ _ _ _ _ _ _ _ H);
    [|auto].
  intros p ld1 l1 ld2 n2 l2 Hp HP Hpp.
  eapply (parse_package_inv (fun ld1 => forall c k r, get k (obj ld1 c) = Some r ->
            get k (obj ld c) = Some r \/ provenance packages c k r)); [|exact HP|exact Hpp].
  intros ld3 n3 c0 node l3 ld4 n4 l4 Hin HP3 Hc c k r Hg.
  destruct (collect_one_inv _ _ _ _ _ _ _ _ _ _ _ Hc) as [_ [id [Hid Hcase]]].
  destruct Hcase as [[Hm ->] | [Hm [-> | [Hs ->]]]]; [|auto|auto].
  rewrite get_set_obj in Hg. destruct (cat_eqb c c0) eqn:Ec; [|auto].
  apply cat_eqb_eq in Ec; subst c0.
  destruct (String.eqb k id) eqn:Ek.
  - apply String.eqb_eq in Ek; subst k. rewrite get_set_eq in Hg. injection Hg as <-.
    right. split; [|exact Hid]. exists p. simpl. auto.
  - apply String.eqb_neq in Ek. rewrite get_set_neq in Hg by auto. auto.
Qed.

Theorem collect_all_override_shape packages l ld' n l' :
  collect_all packages init_loader l = (Ok (ld', n), l') ->
  forall c, obj_override ld' c = OvDict [] \/
    exists z node id, obj_override ld' c = OvList [(z, node)] /\
      pv_eqb (pget_def node "overrideOrig" (PVStr "0")) "1" = true /\
      pget_opt node "id" = Some (PVStr id) /\ mem id (obj ld' c) = true.
Proof.
  intros H. exact (collect_all_shape _ _ _ _ _ H).
Qed.

Theorem load_objects_override_list_fails ld c lst e l :
  obj_override ld c = OvList lst -> In e (obj ld c) ->
  exists err l', load_objects ld l = (Err err, l').
Proof.
  intros Hl He. apply (load_objects_err ld c e); eauto.
Qed.

Theorem load_after_collect packages l ld' n l' l2 data l3 :
  collect_all packages init_loader l = (Ok (ld', n), l') ->
  load_objects ld' l2 = (Ok data, l3) ->
  (forall c, obj_override ld' c = OvDict []) /\
  map fst data = obj_types /\
  forall c objs, In (c, objs) data ->
    Forall2 (fun e lo => lo_pak_id lo = oe_pak_id (snd e) /\ lo_pak_name lo = oe_disp (snd e) /\
               exists la lb, parse_obj c (oe_zip (snd e)) (fst e) (oe_node (snd e)) la
                             = (Ok (lo_obj lo), lb))
            (obj ld' c) objs.
Proof.
  intros Hc Hl. split.
  - intros c. destruct (collect_all_shape _ _ _ _ _ Hc c)
      as [Ho | [z [node [id [Ho [_ [_ Hm]]]]]]]; [exact Ho|].
    apply mem_get in Hm as [r Hr]. apply get_In in Hr.
    destruct (load_objects_err ld' c _ l2 (ex_intro _ _ Ho) Hr) as [err [l4 Herr]].
    rewrite Herr in Hl. discriminate.
  - unfold load_objects in Hl. apply load_cats_ok in Hl as [res [-> [Hk Hres]]].
    split; [exact Hk|]. intros c objs Hin.
    destruct (Hres c objs Hin) as [la [lb Hf]].
    apply load_entries_ok in Hf as [res' [-> Hf]]. exact Hf.
Qed.

End LoadExtras.

Module ItemFacts.
Import ODict ODictFacts LoadFacts.

Lemma for_each_reach {A S} (R : S -> S -> Prop) (Q : A -> S -> Prop) (xs : list A)
    (body : S -> A -> M S) :
  (forall s, R s s) -> (forall a b c, R a b -> R b c -> R a c) ->
  (forall x s s', Q x s -> R s s' -> Q x s') ->
  (forall s x l s' l', In x xs -> body s x l = (Ok s', l') -> R s s' /\ Q x s') ->
  forall s l s' l', for_each xs s body l = (Ok s', l') ->
    R s s' /\ forall x, In x xs -> Q x s'.
Proof.
  intros Hrefl Htrans Hst Hb. induction xs as [|x xs IH]; cbn [for_each]; intros s l s' l' H.
  - unfold ret in H; injection H as <- _. split; [apply Hrefl|intros _ []].
  - apply bind_ok_inv in H as [s1 [l1 [E H]]].
    destruct (Hb _ _ _ _ _ (or_introl eq_refl) E) as [R1 Q1].
    destruct (IH (fun s0 x0 l0 s0' l0' Hin => Hb s0 x0 l0 s0' l0' (or_intror Hin)) _ _ _ _ H)
      as [R2 Q2].
    split; [eauto|]. intros y [<- | Hy]; eauto.
Qed.

Lemma for_each_body_ok {A S} (xs : list A) (body : S -> A -> M S) s l s' l' :
  for_each xs s body l = (Ok s', l') ->
  forall x, In x xs -> exists s0 l0 s1 l1, body s0 x l0 = (Ok s1, l1).
Proof.
  revert s l; induction xs as [|y xs IH]; cbn [for_each]; intros s l H x Hx; [destruct Hx|].
  apply bind_ok_inv in H as [s1 [l1 [E H]]].
  destruct Hx as [<- | Hx]; eauto.
Qed.

Lemma for_each_set_all {V A} (good : V -> Prop) (key : A -> string) (ks : list A)
    (body : t V -> A -> M (t V)) :
  (forall acc x l acc' l', In x ks -> body acc x l = (Ok acc', l') ->
     exists v, good v /\ acc' = set (key x) v acc) ->
  forall f l f' l', for_each ks f body l = (Ok f', l') ->
  forall k v, get k f' = Some v -> good v \/ (get k f = Some v /\ ~ In k (map key ks)).
Proof.
  intros Hb. induction ks as [|x ks IH]; cbn [for_each]; intros f l f' l' H k v Hk.
  - unfold ret in H; injection H as <- _. right. auto.
  - apply bind_ok_inv in H as [f1 [l1 [E H]]].
    destruct (Hb _ _ _ _ _ (or_introl eq_refl) E) as [w [Hw ->]].
    destruct (IH (fun a y l0 a' l0' Hin => Hb a y l0 a' l0' (or_intror Hin)) _ _ _ _ H k v Hk)
      as [Hg | [Hg Hn]]; [now left|].
    destruct (String.eqb k (key x)) eqn:Ek.
    + apply String.eqb_eq in Ek; subst k. rewrite get_set_eq in Hg. injection Hg as ->.
      now left.
    + apply String.eqb_neq in Ek. rewrite get_set_neq in Hg by exact Ek.
      right. split; [exact Hg|]. simpl. intros [He | He]; [congruence|contradiction].
Qed.

Lemma length_list_set {A} i (x : A) l : length (list_set i x l) = length l.
Proof.
  revert i; induction l as [|y l IH]; intros [|i]; simpl; auto.
Qed.

Lemma nth_list_set_eq {A} i (x d : A) l : i < length l -> nth i (list_set i x l) d = x.
Proof.
  revert i; induction l as [|y l IH]; intros [|i]; simpl; intros H; try lia; auto.
  all: apply IH; lia.
Qed.

Lemma nth_list_set_neq {A} i j (x d : A) l : j <> i -> nth j (list_set i x l) d = nth j l d.
Proof.
  revert i j; induction l as [|y l IH]; intros [|i] [|j]; simpl; intros H; auto; try lia.
  all: apply IH; lia.
Qed.

Lemma load_folders_all zip folders l F l' :
  load_folders zip folders l = (Ok F, l') -> all_folders F.
Proof.
  intros H k x Hk. unfold load_folders in H.
  assert (Hb : forall acc x0 l0 acc' l0', In x0 (map fst folders) ->
     (d <- load_folder zip x0 ;; ret (set x0 (VFolder d) acc)) l0 = (Ok acc', l0') ->
     exists v, is_folder v /\ acc' = set x0 v acc).
  { intros acc x0 l0 acc' l0' _ E.
    apply bind_ok_inv in E as [d [l1 [_ E]]]. unfold ret in E; injection E as <- _.
    exists (VFolder d). split; [now exists d|reflexivity]. }
  destruct (for_each_set_all is_folder (fun k => k) _ _ Hb _ _ _ _ H k x Hk)
    as [Hg | [Hg Hn]]; [exact Hg|].
  apply get_In in Hg. rewrite map_id in Hn. elim Hn. apply in_map_iff. now exists (k, x).
Qed.

Lemma folder_files zip k l d l' :
  load_folder zip k l = (Ok d, l') ->
  in_files ("items/" ++ k ++ "/properties.txt") (namelist zip) = true /\
  in_files ("items/" ++ k ++ "/editoritems.txt") (namelist zip) = true.
Proof.
  unfold load_folder. destruct (in_files _ _) eqn:E1, (in_files ("items/" ++ k ++ "/editoritems.txt") _) eqn:E2;
    simpl; try (unfold raise; discriminate). auto.
Qed.

Lemma load_folders_files zip folders l F l' k :
  load_folders zip folders l = (Ok F, l') -> mem k folders = true ->
  in_files ("items/" ++ k ++ "/properties.txt") (namelist zip) = true /\
  in_files ("items/" ++ k ++ "/editoritems.txt") (namelist zip) = true.
Proof.
  intros H Hm. apply mem_get in Hm as [v Hv]. apply get_In in Hv.
  unfold load_folders in H.
  destruct (for_each_body_ok _ _ _ _ _ _ H k (in_map fst _ (k, v) Hv))
    as [s0 [l0 [s1 [l1 E]]]].
  apply bind_ok_inv in E as [d [l2 [E _]]]. exact (folder_files _ _ _ _ _ E).
Qed.

Lemma version_style_marks st sty l st' l' :
  version_style st sty l = (Ok st', l') ->
  keys_grow st st' /\ forall s, pvalue sty = PVStr s -> mem s (snd st') = true.
Proof.
  destruct st as [vals folders]. unfold version_style. intros H.
  apply bind_ok_inv in H as [f [l1 [E H]]]. unfold ret in H; injection H as <- _.
  unfold folders_mark in E. destruct (pvalue sty) as [s|] eqn:Es; [|discriminate].
  unfold ret in E; injection E as <- _. split.
  - intros k Hk. simpl in *. now apply Resolve.mem_set_mono.
  - intros s' Hs'. injection Hs' as <-. simpl. apply mem_get. exists (VBool true).
    apply get_set_eq.
Qed.

Lemma parse_version_marks st ver l st' l' :
  parse_version st ver l = (Ok st', l') -> keys_grow st st' /\ marked_ver ver st'.
Proof.
  destruct st as [versions folders]. unfold parse_version. intros H.
  apply bind_ok_inv in H as [[vals f] [l1 [E H]]]. unfold ret in H; injection H as <- _.
  assert (Hb : forall s x l0 s' l0', In x (find_all (pchildren ver) "styles") ->
     for_each (pchildren x) s version_style l0 = (Ok s', l0') ->
     keys_grow s s' /\ forall sty s0, In sty (pchildren x) -> pvalue sty = PVStr s0 ->
       mem s0 (snd s') = true).
  { intros s x l0 s' l0' _ E0.
    destruct (for_each_reach keys_grow
                (fun sty st => forall s, pvalue sty = PVStr s -> mem s (snd st) = true) _ _
                (fun _ _ H => H) (fun a b c Hab Hbc k Hk => Hbc k (Hab k Hk))
                (fun x s s' Hq Hr s0 Hv => Hr _ (Hq s0 Hv))
                (fun s x l2 s' l2' _ E1 => version_style_marks _ _ _ _ _ E1) _ _ _ _ E0)
      as [Hg Hm].
    split; [exact Hg|]. intros sty s0 Hin Hv. exact (Hm sty Hin s0 Hv). }
  destruct (for_each_reach keys_grow
              (fun sl st => forall sty s, In sty (pchildren sl) -> pvalue sty = PVStr s ->
                             mem s (snd st) = true) _ _
              (fun _ _ H => H) (fun a b c Hab Hbc k Hk => Hbc k (Hab k Hk))
              (fun x s s' Hq Hr sty s0 Hin Hv => Hr _ (Hq sty s0 Hin Hv))
              Hb _ _ _ _ E) as [Hg Hm].
  split; [exact Hg|]. intros sl sty s Hsl Hsty Hv. exact (Hm sl Hsl sty s Hsty Hv).
Qed.

Lemma versions_marked info st l st' l' :
  for_each (find_all (pchildren info) "version") st parse_version l = (Ok st', l') ->
  forall ver, In ver (find_all (pchildren info) "version") -> marked_ver ver st'.
Proof.
  intros H.
  refine (proj2 (for_each_reach keys_grow marked_ver _ _
            (fun _ _ H => H) (fun a b c Hab Hbc k Hk => Hbc k (Hab k Hk))
            (fun x s s' Hq Hr sl sty s0 H1 H2 H3 => Hr _ (Hq sl sty s0 H1 H2 H3))
            (fun s x l0 s' l0' _ E => parse_version_marks _ _ _ _ _ E) _ _ _ _ H)).
Qed.

Lemma rewrite_version_ok F vs i l vs' l' :
  all_folders F -> i < length vs ->
  rewrite_version F vs i l = (Ok vs', l') ->
  length vs' = length vs /\ styles_loaded (nth i vs' dummy_version) /\
  forall j, j <> i -> nth j vs' dummy_version = nth j vs dummy_version.
Proof.
  intros HF Hi H. unfold rewrite_version in H.
  apply bind_ok_inv in H as [b [l1 [_ H]]].
  apply bind_ok_inv in H as [ver [l2 [_ H]]].
  apply bind_ok_inv in H as [styles [l3 [Es H]]].
  unfold ret in H; injection H as <- _.
  split; [apply length_list_set|split].
  - rewrite nth_list_set_eq by exact Hi. intros k x Hk. simpl in Hk.
    assert (Hb : forall acc (e : string * PyVal) l0 acc' l0', In e (v_styles ver) ->
       (let '(sty, fold) := e in f <- folders_get fold F ;; ret (set sty f acc)) l0
         = (Ok acc', l0') ->
       exists v, is_folder v /\ acc' = set (fst e) v acc).
    { intros acc [sty fold] l0 acc' l0' _ E.
      apply bind_ok_inv in E as [f [l4 [Ef E]]]. unfold ret in E; injection E as <- _.
      exists f. split; [|reflexivity].
      unfold folders_get in Ef. destruct fold as [| |[s|]|]; try discriminate.
      destruct (get s F) eqn:Eg; [|discriminate]. unfold ret in Ef; injection Ef as ->.
      exact (HF _ _ Eg). }
    destruct (for_each_set_all is_folder fst _ _ Hb _ _ _ _ Es k x Hk)
      as [Hg | [Hg Hn]]; [exact Hg|].
    apply get_In in Hg. elim Hn. apply in_map_iff. now exists (k, x).
  - intros j Hj. apply nth_list_set_neq. exact Hj.
Qed.

Lemma rewrite_loop_ok F a m vs l vs' l' :
  all_folders F -> a + m <= length vs ->
  for_each (seq a m) vs (rewrite_version F) l = (Ok vs', l') ->
  length vs' = length vs /\
  (forall i, a <= i < a + m -> styles_loaded (nth i vs' dummy_version)) /\
  (forall j, j < a -> nth j vs' dummy_version = nth j vs dummy_version).
Proof.
  intros HF. revert a vs l; induction m as [|m IH]; intros a vs l Hlen H;
    cbn [seq for_each] in H.
  - unfold ret in H; injection H as <- _. split; [reflexivity|split; [intros; lia|auto]].
  - apply bind_ok_inv in H as [vs1 [l1 [E H]]].
    destruct (rewrite_version_ok F vs a l vs1 l1 HF ltac:(lia) E) as [L1 [G1 U1]].
    destruct (IH (S a) vs1 l1 ltac:(lia) H) as [L2 [G2 U2]].
    split; [congruence|split].
    + intros i Hi. destruct (Nat.eq_dec i a) as [-> | Hne].
      * rewrite U2 by lia. exact G1.
      * apply G2. lia.
    + intros j Hj. rewrite U2 by lia. apply U1. lia.
Qed.

End ItemFacts.

Module ItemExtras.
Import ODict ODictFacts Collect LoadFacts ItemFacts.

Lemma map_list_set {A B} (f : A -> B) i x d l :
  f x = f (nth i l d) -> map f (list_set i x l) = map f l.
Proof.
  revert i; induction l as [|y l IH]; intros [|i]; simpl; intros H; auto.
  - now rewrite H.
  - now rewrite IH.
Qed.

Lemma version_style_meta st sty l st' l' :
  version_style st sty l = (Ok st', l') -> ver_meta (fst st') = ver_meta (fst st).
Proof.
  destruct st as [vals0 fo0]. unfold version_style. intros H.
  apply bind_ok_inv in H as [fo [l5 [_ H]]]. unfold ret in H; injection H as <- _.
  simpl. destruct (v_def_style vals0); reflexivity.
Qed.

Lemma styles_meta (sls : list Property) st l st' l' :
  for_each sls st (fun st sty_list => for_each (pchildren sty_list) st version_style) l
    = (Ok st', l') -> ver_meta (fst st') = ver_meta (fst st).
Proof.
  apply (for_each_inv (fun s => ver_meta (fst s) = ver_meta (fst st))); [|reflexivity].
  intros s x l0 s' l0' _ Hs E. rewrite <- Hs.
  apply (for_each_inv (fun s0 => ver_meta (fst s0) = ver_meta (fst s)) _ _
           (fun s0 y l1 s0' l1' _ H0 E0 => eq_trans (version_style_meta _ _ _ _ _ E0) H0)
           _ _ _ _ eq_refl E).
Qed.

Lemma parse_loop_meta nodes vs0 f0 l vs f l' :
  for_each nodes (vs0, f0) parse_version l = (Ok (vs, f), l') ->
  map ver_meta vs = map ver_meta vs0 ++ map node_meta nodes.
Proof.
  revert vs0 f0 l; induction nodes as [|n nodes IH]; cbn [for_each]; intros vs0 f0 l H.
  - unfold ret in H; injection H as <- _ _. now rewrite app_nil_r.
  - apply bind_ok_inv in H as [[vs1 f1] [l1 [E H]]].
    rewrite (IH _ _ _ H).
    unfold parse_version in E. apply bind_ok_inv in E as [[vals f2] [l2 [E2 E]]].
    unfold ret in E; injection E as <- _.
    apply styles_meta in E2. simpl in E2.
    rewrite map_app, <- app_assoc. simpl. rewrite E2. reflexivity.
Qed.

Lemma rewrite_version_meta F vs i l vs' l' :
  rewrite_version F vs i l = (Ok vs', l') -> map ver_meta vs' = map ver_meta vs.
Proof.
  unfold rewrite_version. intros H.
  apply bind_ok_inv in H as [b [l1 [_ H]]].
  apply bind_ok_inv in H as [ver [l2 [Ev H]]].
  apply bind_ok_inv in H as [styles [l3 [_ H]]].
  unfold ret in H; injection H as <- _.
  apply (map_list_set _ _ _ dummy_version).
  destruct b.
  - apply bind_ok_inv in Ev as [d [l4 [_ Ev]]]. unfold ret in Ev; injection Ev as <- _.
    reflexivity.
  - unfold ret in Ev; injection Ev as <- _. reflexivity.
Qed.

Lemma item_parse_parts zip id info l it l' :
  Item_parse zip id info l = (Ok it, l') ->
  exists vs folders l1 F l2 l3,
    for_each (find_all (pchildren info) "version") ([], []) parse_version l
      = (Ok (vs, folders), l1) /\
    load_folders zip folders l1 = (Ok F, l2) /\
    for_each (seq 0 (length vs)) vs (rewrite_version F) l2 = (Ok (versions it), l3).
Proof.
  unfold Item_parse. intros H.
  apply bind_ok_inv in H as [[vs folders] [l1 [E1 H]]].
  apply bind_ok_inv in H as [F [l2 [E2 H]]].
  apply bind_ok_inv in H as [vs' [l3 [E3 H]]].
  unfold Item_init in H. destruct vs' as [|v vs'']; [discriminate|].
  unfold ret in H; injection H as <- _.
  exists vs, folders, l1, F, l2, l3. auto.
Qed.

(** [Item.parse]: after a successful parse, every value of every version's
    [styles] mapping is the data of a loaded folder. *)
Theorem item_parse_styles_loaded zip id info l it l' :
  Item_parse zip id info l = (Ok it, l') ->
  forall v, In v (versions it) ->
    forall k x, get k (v_styles v) = Some x -> exists f, x = VFolder f.
Proof.
  intros H v Hv.
  destruct (item_parse_parts _ _ _ _ _ _ H) as [vs [folders [l1 [F [l2 [l3 [E1 [E2 E3]]]]]]]].
  destruct (rewrite_loop_ok F 0 (length vs) vs _ _ _ (load_folders_all _ _ _ _ _ E2)
              (le_n _) E3) as [L [G _]].
  apply (In_nth _ _ dummy_version) in Hv as [i [Hi <-]].
  apply G. lia.
Qed.

(** [Item.parse]: a successful parse found the [properties.txt] and
    [editoritems.txt] of every folder named by a style of a [version] block. *)
Theorem item_parse_files zip id info l it l' :
  Item_parse zip id info l = (Ok it, l') ->
  forall ver sl sty s, In ver (find_all (pchildren info) "version") ->
    In sl (find_all (pchildren ver) "styles") -> In sty (pchildren sl) ->
    pvalue sty = PVStr s ->
    in_files ("items/" ++ s ++ "/properties.txt") (namelist zip) = true /\
    in_files ("items/" ++ s ++ "/editoritems.txt") (namelist zip) = true.
Proof.
  intros H ver sl sty s Hver Hsl Hsty Hs.
  destruct (item_parse_parts _ _ _ _ _ _ H) as [vs [folders [l1 [F [l2 [l3 [E1 [E2 E3]]]]]]]].
  apply (load_folders_files _ _ _ _ _ _ E2).
  exact (versions_marked _ _ _ _ _ E1 ver Hver sl sty s Hsl Hsty Hs).
Qed.

(** [Item.parse]: the item has one version per [version] block, in order,
    with its [name], [beta] and [deprecated] values. *)
Theorem item_parse_versions_meta zip id info l it l' :
  Item_parse zip id info l = (Ok it, l') ->
  map ver_meta (versions it) = map node_meta (find_all (pchildren info) "version").
Proof.
  intros H.
  destruct (item_parse_parts _ _ _ _ _ _ H) as [vs [folders [l1 [F [l2 [l3 [E1 [E2 E3]]]]]]]].
  rewrite (for_each_inv (fun vs' => map ver_meta vs' = map ver_meta vs) _ _
             (fun s x l0 s' l0' _ Hs E => eq_trans (rewrite_version_meta _ _ _ _ _ _ E) Hs)
             _ _ _ _ eq_refl E3).
  exact (parse_loop_meta _ _ _ _ _ _ _ E1).
Qed.

End ItemExtras.

Module DefStyleFacts.
Import ODict ODictFacts Collect LoadFacts ItemFacts.

Lemma version_style_def st sty l st' l' :
  version_style st sty l = (Ok st', l') ->
  def_of st' = match def_of st with VNone => VProp (pvalue sty) | d => d end.
Proof.
  destruct st as [vals0 fo0]. unfold version_style, def_of. intros H.
  apply bind_ok_inv in H as [fo [l5 [_ H]]]. unfold ret in H; injection H as <- _.
  simpl. destruct (v_def_style vals0) eqn:Ed; simpl; congruence.
Qed.

Lemma inner_def stys st l st' l' :
  for_each stys st version_style l = (Ok st', l') ->
  (def_of st <> VNone -> def_of st' = def_of st) /\
  (def_of st = VNone ->
     (stys = [] /\ def_of st' = VNone) \/
     exists sty, In sty stys /\ def_of st' = VProp (pvalue sty)).
Proof.
  revert st l; induction stys as [|sty stys IH]; cbn [for_each]; intros st l H.
  - unfold ret in H; injection H as <- _. split; [auto|left; auto].
  - apply bind_ok_inv in H as [st1 [l1 [E H]]].
    apply version_style_def in E. destruct (IH _ _ H) as [I1 _].
    split.
    + intros Hn. rewrite I1; [|rewrite E; destruct (def_of st); congruence].
      rewrite E. destruct (def_of st); congruence.
    + intros Hn. right. exists sty. split; [now left|].
      rewrite I1; [rewrite E, Hn; reflexivity|rewrite E, Hn; discriminate].
Qed.

Lemma outer_def sls st l st' l' :
  for_each sls st (fun st sty_list => for_each (pchildren sty_list) st version_style) l
    = (Ok st', l') ->
  (def_of st <> VNone -> def_of st' = def_of st) /\
  (def_of st = VNone ->
     ((forall sl, In sl sls -> pchildren sl = []) /\ def_of st' = VNone) \/
     exists sl sty, In sl sls /\ In sty (pchildren sl) /\ def_of st' = VProp (pvalue sty)).
Proof.
  revert st l; induction sls as [|sl sls IH]; cbn [for_each]; intros st l H.
  - unfold ret in H; injection H as <- _. split; [auto|left; split; [intros _ []|auto]].
  - apply bind_ok_inv in H as [st1 [l1 [E H]]].
    destruct (inner_def _ _ _ _ _ E) as [J1 J2]. destruct (IH _ _ H) as [I1 I2].
    split.
    + intros Hn. rewrite I1, J1; auto. rewrite J1; auto.
    + intros Hn. destruct (J2 Hn) as [[Hp Hd] | [sty [Hin Hd]]].
      * destruct (I2 Hd) as [[Hall Hd'] | [sl' [sty [Hsl [Hsty Hd']]]]].
        -- left. split; [|exact Hd']. intros sl0 [<- | Hin]; auto.
        -- right. exists sl', sty. split; [now right|auto].
      * right. exists sl, sty. split; [now left|split; [exact Hin|]].
        rewrite I1; [exact Hd|rewrite Hd; discriminate].
Qed.

Lemma parse_loop_def nodes vs0 f0 l vs f l' :
  for_each nodes (vs0, f0) parse_version l = (Ok (vs, f), l') ->
  exists news, vs = vs0 ++ news /\ Forall2 def_rel nodes news.
Proof.
  revert vs0 f0 l; induction nodes as [|n nodes IH]; cbn [for_each]; intros vs0 f0 l H.
  - unfold ret in H; injection H as <- _ _. exists []. split; [now rewrite app_nil_r|constructor].
  - apply bind_ok_inv in H as [[vs1 f1] [l1 [E H]]].
    destruct (IH _ _ _ H) as [news [-> Hn]].
    unfold parse_version in E. apply bind_ok_inv in E as [[vals f2] [l2 [E2 E]]].
    unfold ret in E; injection E as <- _.
    exists (vals :: news). split; [now rewrite <- app_assoc|constructor; [|exact Hn]].
    destruct (outer_def _ _ _ _ _ E2) as [_ D]. unfold def_of in D; simpl in D.
    destruct (D eq_refl) as [[Hall Hd] | [sl [sty [Hsl [Hsty Hd]]]]].
    + left. split; [exact Hall|exact Hd].
    + right. exists sl, sty. auto.
Qed.

Lemma rewrite_version_frame F vs i l vs' l' :
  rewrite_version F vs i l = (Ok vs', l') ->
  length vs' = length vs /\ forall j, j <> i -> nth j vs' dummy_version = nth j vs dummy_version.
Proof.
  unfold rewrite_version. intros H.
  apply bind_ok_inv in H as [b [l1 [_ H]]].
  apply bind_ok_inv in H as [ver [l2 [_ H]]].
  apply bind_ok_inv in H as [styles [l3 [_ H]]].
  unfold ret in H; injection H as <- _.
  split; [apply length_list_set|intros j Hj; apply nth_list_set_neq; exact Hj].
Qed.

Lemma rewrite_loop_steps F a m vs l vs' l' :
  for_each (seq a m) vs (rewrite_version F) l = (Ok vs', l') ->
  forall i, a <= i < a + m -> exists vsi li vsi' li',
    length vsi = length vs /\
    (forall j, i <= j -> nth j vsi dummy_version = nth j vs dummy_version) /\
    rewrite_version F vsi i li = (Ok vsi', li').
Proof.
  revert a vs l; induction m as [|m IH]; intros a vs l H i Hi; [lia|].
  cbn [seq for_each] in H. apply bind_ok_inv in H as [vs1 [l1 [E H]]].
  destruct (Nat.eq_dec i a) as [-> | Hne].
  - exists vs, l, vs1, l1. auto.
  - destruct (IH _ _ _ H i ltac:(lia)) as [vsi [li [vsi' [li' [L [U R]]]]]].
    destruct (rewrite_version_frame _ _ _ _ _ _ E) as [L1 U1].
    exists vsi, li, vsi', li'. split; [congruence|split; [|exact R]].
    intros j Hj. rewrite U; [apply U1; lia|lia].
Qed.

Lemma last_nth {A} (l : list A) d : last l d = nth (length l - 1) l d.
Proof.
  induction l as [|x [|y l] IH]; auto.
  change (last (x :: y :: l) d) with (last (y :: l) d). rewrite IH. simpl. rewrite !Nat.sub_0_r. reflexivity.
Qed.

Lemma load_folders_keys zip folders l F l' k :
  load_folders zip folders l = (Ok F, l') -> mem k folders = true -> mem k F = true.
Proof.
  intros H Hk. unfold load_folders in H.
  refine (for_each_inv (fun f => mem k f = true) _ _ _ _ _ _ _ Hk H).
  intros s x l0 s' l0' _ Hs E.
  apply bind_ok_inv in E as [d [l1 [_ E]]]. unfold ret in E; injection E as <- _.
  now apply Resolve.mem_set_mono.
Qed.

End DefStyleFacts.

Module DefStyleExtras.
Import ODict ODictFacts Collect LoadFacts ItemFacts ItemExtras DefStyleFacts.

Lemma Forall2_nth' {A B} (R : A -> B -> Prop) xs ys i dx dy :
  Forall2 R xs ys -> i < length xs -> R (nth i xs dx) (nth i ys dy).
Proof.
  intros H. revert i; induction H as [|x y xs ys Hxy H IH]; intros [|i] Hi; simpl in *;
    try lia; auto.
  apply IH. lia.
Qed.

Theorem item_parse_unstyled_last zip id info l it l' pre lastv :
  find_all (pchildren info) "version" = pre ++ [lastv] ->
  no_style lastv ->
  Item_parse zip id info l = (Ok it, l') ->
  forall ver, In ver pre -> no_style ver.
Proof.
  intros Hv Hlast H ver Hin.
  destruct (item_parse_parts _ _ _ _ _ _ H) as [vs [folders [l1 [F [l2 [l3 [E1 [E2 E3]]]]]]]].
  destruct (parse_loop_def _ _ _ _ _ _ _ E1) as [news [Hvs HF2]]. simpl in Hvs. subst vs.
  rewrite Hv in HF2. apply Forall2_app_inv_l in HF2 as [n1 [n2 [F1 [F2 ->]]]].
  inversion F2 as [|? lastver ? ? Dlast Fnil]; subst. inversion Fnil; subst.
  apply (In_nth _ _ ver) in Hin as [i [Hi Hnth]].
  pose proof (Forall2_length F1) as Hlen.
  destruct (Forall2_nth' _ _ _ i ver dummy_version F1 Hi) as [[Hno _] | [sl [sty [Hsl [Hsty Hd]]]]];
    [now rewrite Hnth in Hno|exfalso].
  assert (Hln : v_def_style lastver = VNone).
  { destruct Dlast as [[_ Hn] | [sl' [sty' [Hsl' [Hsty' _]]]]]; [exact Hn|].
    rewrite (Hlast sl' Hsl') in Hsty'. destruct Hsty'. }
  rewrite length_app in E3. simpl in E3.
  destruct (rewrite_loop_steps _ _ _ _ _ _ _ E3 i ltac:(lia))
    as [vsi [li [vsi' [li' [L [U R]]]]]].
  rewrite length_app in L. simpl in L.
  assert (Hi' : nth i vsi dummy_version = nth i n1 dummy_version).
  { rewrite U by lia. apply app_nth1. lia. }
  assert (Hl' : last vsi dummy_version = lastver).
  { rewrite last_nth, U by lia. rewrite app_nth2 by lia.
    replace (length vsi - 1 - length n1) with 0 by lia. reflexivity. }
  unfold rewrite_version in R. rewrite Hi', Hl', Hd in R.
  apply bind_ok_inv in R as [b [li1 [Eb R]]].
  unfold in_folders in Eb. destruct (pvalue sty) as [s|] eqn:Es; [|discriminate].
  assert (Hm : mem s F = true).
  { apply (DefStyleFacts.load_folders_keys _ _ _ _ _ _ E2).
    refine (versions_marked _ _ _ _ _ E1 (nth i pre ver) _ sl sty s Hsl Hsty Es).
    rewrite Hv. apply in_or_app. left. apply nth_In. exact Hi. }
  unfold ret in Eb. injection Eb as <- _. rewrite Hm in R.
  apply bind_ok_inv in R as [v' [li2 [Ev _]]].
  rewrite Hln in Ev. discriminate.
Qed.

End DefStyleExtras.

Module RegisterFacts.
Import ODict ODictFacts LoadFacts.

Lemma register_one_ok dir zips0 pk0 e l zips1 pk1 l' :
  register_one dir (zips0, pk0) e l = (Ok (zips1, pk1), l') ->
  zips1 = zips0 ++ zip_entry dir e /\
  pk1 = match reg_entry dir e with Some r => set (re_id r) r pk0 | None => pk0 end.
Proof.
  unfold register_one. intros H. apply bind_ok_inv in H as [[] [l1 [_ H]]].
  destruct e as [n|n z]; simpl in *.
  - unfold ret in H; injection H as <- <- _. now rewrite app_nil_r.
  - destruct (ends_with ".zip" (os_join dir n)); simpl;
      [|unfold ret in H; injection H as <- <- _; now rewrite app_nil_r].
    destruct (in_files "info.txt" (namelist z)); simpl.
    + unfold find_key in H. destruct (find_key_opt _ "ID") as [p|]; [|discriminate].
      apply bind_ok_inv in H as [p' [l2 [Ep H]]]. unfold ret in Ep; injection Ep as <- <-.
      apply bind_ok_inv in H as [id [l3 [Eid H]]].
      unfold as_str in Eid. destruct (pvalue p) as [s|]; [|discriminate].
      unfold ret in Eid, H. injection Eid as <- _. injection H as <- <- _.
      split; reflexivity.
    + apply bind_ok_inv in H as [[] [l2 [_ H]]]. unfold ret in H; injection H as <- <- _.
      auto.
Qed.

Lemma register_one_not_bad dir st e l :
  reg_bad dir e = false -> exists st' l', register_one dir st e l = (Ok st', l').
Proof.
  destruct st as [zips pk]. intros Hb. unfold register_one.
  destruct e as [n|n z].
  - unfold bind, print, ret. do 2 eexists; reflexivity.
  - unfold reg_bad in Hb. change (de_name (DEFile n z)) with n.
    destruct (ends_with ".zip" (os_join dir n)); [|unfold bind, print, ret; do 2 eexists; reflexivity].
    destruct (in_files "info.txt" (namelist z)); [|unfold bind, print, ret; do 2 eexists; reflexivity].
    simpl in Hb. unfold find_key. destruct (find_key_opt _ "ID") as [p|]; [|discriminate].
    destruct (pvalue p) eqn:E3; [|discriminate]. unfold bind, print, ret, as_str. rewrite E3.
    do 2 eexists; reflexivity.
Qed.

Lemma register_one_bad dir st e l :
  reg_bad dir e = true -> exists err l', register_one dir st e l = (Err err, l') /\
    (err = NoKeyError "ID" \/ err = TypeError).
Proof.
  destruct st as [zips pk]. intros Hb. unfold register_one.
  destruct e as [n|n z]; [discriminate|].
  unfold reg_bad in Hb. change (de_name (DEFile n z)) with n.
  destruct (ends_with ".zip" (os_join dir n)); [|discriminate].
  destruct (in_files "info.txt" (namelist z)); [|discriminate].
  simpl in Hb. unfold find_key. destruct (find_key_opt _ "ID") as [p|].
  - destruct (pvalue p) eqn:E3; [discriminate|].
    unfold bind, print, ret, as_str, raise. rewrite E3. eauto.
  - unfold bind, print, raise. eauto.
Qed.

Lemma split_cons {A} (P : A -> list A -> Prop) (x : A) (xs : list A) :
  (exists pre y post, x :: xs = pre ++ y :: post /\ P y post) <->
  P x xs \/ exists pre y post, xs = pre ++ y :: post /\ P y post.
Proof.
  split.
  - intros [[|z pre] [y [post [E H]]]]; simpl in E; injection E as -> ->; [now left|].
    right. eauto.
  - intros [H | [pre [y [post [-> H]]]]].
    + exists [], x, xs. auto.
    + exists (x :: pre), y, post. auto.
Qed.

Lemma register_loop dir contents zips0 pk0 l zips pk l' :
  for_each contents (zips0, pk0) (register_one dir) l = (Ok (zips, pk), l') ->
  zips = zips0 ++ flat_map (zip_entry dir) contents /\
  forall id r, get id pk = Some r <->
    (exists pre e post, contents = pre ++ e :: post /\
       (reg_entry dir e = Some r /\ re_id r = id /\ Forall (no_id dir id) post)) \/
    (get id pk0 = Some r /\ Forall (no_id dir id) contents).
Proof.
  revert zips0 pk0 l; induction contents as [|e rest IH]; cbn [for_each];
    intros zips0 pk0 l H.
  - unfold ret in H; injection H as <- <- _. split; [now rewrite app_nil_r|].
    intros id r. split; [intros Hg; right; auto|].
    intros [[pre [e [post [E _]]]] | [Hg _]]; [|exact Hg].
    destruct pre; discriminate.
  - apply bind_ok_inv in H as [[zips1 pk1] [l1 [E H]]].
    destruct (register_one_ok _ _ _ _ _ _ _ _ E) as [-> ->].
    destruct (IH _ _ _ H) as [Hz Hp]. split; [rewrite Hz; simpl; now rewrite app_assoc|].
    intros id r. rewrite Hp, (split_cons (fun y post => reg_entry dir y = Some r /\
       re_id r = id /\ Forall (no_id dir id) post)).
    destruct (reg_entry dir e) as [r0|] eqn:Er.
    + destruct (String.eqb (re_id r0) id) eqn:Ei.
      * apply String.eqb_eq in Ei. subst id. rewrite get_set_eq.
        assert (Hn : ~ no_id dir (re_id r0) e) by (intros Hn; exact (Hn r0 Er eq_refl)).
        split.
        -- intros [A | [Hr F]]; [left; right; exact A|].
           injection Hr as <-. left; left. auto.
        -- intros [[[Hr [_ F]] | A] | [_ F]]; [|left; exact A|inversion F; contradiction].
           injection Hr as <-. right. auto.
      * apply String.eqb_neq in Ei. rewrite get_set_neq by congruence.
        assert (Hn : no_id dir id e) by (intros r' Hr'; rewrite Er in Hr';
                                          injection Hr' as <-; exact Ei).
        split.
        -- intros [A | [Hr F]]; [left; right; exact A|right; auto].
        -- intros [[[Hr [Hi _]] | A] | [Hr F]]; [|left; exact A|inversion F; right; auto].
           injection Hr as <-. contradiction.
    + assert (Hn : no_id dir id e) by (intros r' Hr'; rewrite Er in Hr'; discriminate).
      split.
      * intros [A | [Hr F]]; [left; right; exact A|right; auto].
      * intros [[[Hr _] | A] | [Hr F]]; [discriminate|left; exact A|inversion F; right; auto].
Qed.

End RegisterFacts.

Module RegisterExtras.
Import ODict ODictFacts LoadFacts RegisterFacts.

(** [loadAll]: every [.zip] file is kept in [zips] to be closed, in the
    order of the listing, whether or not it is a valid package. *)
Theorem register_all_zips dir contents l zips pk l' :
  register_all dir contents l = (Ok (zips, pk), l') ->
  zips = flat_map (zip_entry dir) contents.
Proof.
  intros H. exact (proj1 (register_loop _ _ _ _ _ _ _ _ H)).
Qed.

(** [loadAll]: the package registered under [id] is the one of the last
    valid archive whose [ID] is [id]. *)
Theorem register_all_last_wins dir contents l zips pk l' :
  register_all dir contents l = (Ok (zips, pk), l') ->
  forall id r, get id pk = Some r <->
    exists pre e post, contents = pre ++ e :: post /\ reg_entry dir e = Some r /\
      re_id r = id /\ Forall (no_id dir id) post.
Proof.
  intros H id r. rewrite (proj2 (register_loop _ _ _ _ _ _ _ _ H) id r).
  split; [intros [A | [Hg _]]; [exact A|discriminate]|now left].
Qed.

(** [loadAll]: an archive whose [info.txt] has no [ID], or a block as its
    [ID], aborts the registration of all packages. *)
Theorem register_all_bad_id dir pre e post l :
  Forall (fun x => reg_bad dir x = false) pre -> reg_bad dir e = true ->
  exists err l', register_all dir (pre ++ e :: post) l = (Err err, l') /\
    (err = NoKeyError "ID" \/ err = TypeError).
Proof.
  intros Hpre He. unfold register_all. generalize (@nil Zip, @nil (string * RegEntry)) as st.
  revert l. induction Hpre as [|x pre Hx _ IH]; intros l st; simpl.
  - destruct (register_one_bad dir st e l He) as [err [l1 [E Herr]]].
    exists err, l1. unfold bind. rewrite E. auto.
  - destruct (register_one_not_bad dir st x l Hx) as [st1 [l1 E]].
    unfold bind at 1. rewrite E. apply IH.
Qed.

End RegisterExtras.

Module ResFacts.

Lemma prefix_both a b s :
  String.prefix a s = true -> String.prefix b s = true ->
  String.prefix a b = true \/ String.prefix b a = true.
Proof.
  revert b s; induction a as [|x a IH]; intros b s Ha Hb; [left; destruct b; reflexivity|].
  destruct s as [|y s]; [discriminate|].
  destruct b as [|z b]; [now right|].
  simpl in Ha, Hb. destruct (ascii_dec x y) as [<-|]; [|discriminate].
  destruct (ascii_dec z x) as [<-|]; [|discriminate].
  simpl. destruct (ascii_dec z z) as [_|n]; [|contradiction]. eauto.
Qed.

Lemma res_prefixes_apart pf :
  String.prefix (normcase pf "resources/BEE2/") (normcase pf "resources/instances/") = false /\
  String.prefix (normcase pf "resources/instances/") (normcase pf "resources/BEE2/") = false.
Proof. destruct pf; split; reflexivity. Qed.

Lemma extract_one_res pf zip path :
  extract_one pf zip path = if res_path pf path then [(zip, path)] else [].
Proof.
  unfold extract_one, res_path.
  destruct (String.prefix (normcase pf "resources/BEE2/") (normcase pf path)) eqn:E1,
           (String.prefix (normcase pf "resources/instances/") (normcase pf path)) eqn:E2;
    try reflexivity.
  destruct (res_prefixes_apart pf) as [H1 H2].
  destruct (prefix_both _ _ _ E1 E2) as [H|H]; congruence.
Qed.

Lemma casefold_cons c t : casefold (String c t) = String (lower_char c) (casefold t).
Proof. reflexivity. Qed.

Lemma nt_char_lower c :
  (if ascii_dec (lower_char c) "/"%char then "\"%char else lower_char (lower_char c)) =
  (if ascii_dec c "/"%char then "\"%char else lower_char c).
Proof. destruct c as [[] [] [] [] [] [] [] []]; reflexivity. Qed.

Lemma nt_normcase_casefold s : nt_normcase (casefold s) = nt_normcase s.
Proof.
  induction s as [|c t IH]; [reflexivity|].
  rewrite casefold_cons. cbn [nt_normcase]. now rewrite nt_char_lower, IH.
Qed.

End ResFacts.

Module ResExtras.
Import ResFacts.

(** [loadAll]: on either platform the extraction calls [zip.extract]
    exactly once for each path whose [os.path.normcase] starts with that of
    [resources/BEE2/] or [resources/instances/], archive by archive in the
    order of the listing, and for no other path; on Windows the selection
    ignores the case of ASCII letters. *)
Theorem extract_resources_plan pf zips l :
  extract_resources pf zips l =
    (Ok (flat_map (fun z => map (pair z) (filter (res_path pf) (namelist z))) zips),
     l ++ ["Extracting Resources..."]) /\
  (forall path, res_path Windows (casefold path) = res_path Windows path).
Proof.
  split.
  - unfold extract_resources, bind, print, ret. f_equal. f_equal.
    induction zips as [|z zips IH]; [reflexivity|]. simpl. rewrite IH. f_equal.
    induction (namelist z) as [|p ps IHp]; [reflexivity|].
    simpl. rewrite extract_one_res, IHp. destruct (res_path pf p); reflexivity.
  - intros path. unfold res_path. cbn [normcase]. now rewrite nt_normcase_casefold.
Qed.

End ResExtras.

Module ConfigExtras.
Import ParserFacts LoadFacts.

(** [Goo.parse], [Music.parse]: without a [config] key the path is the
    folder name [goo/] (or [music/]) itself, and an archive that lists that
    directory entry has it parsed as the configuration. *)
Theorem config_default_folder zip id info :
  pget_opt info "config" = None ->
  (in_files "goo/" (namelist zip) = true ->
   forall l g l', Goo_parse zip id info l = (Ok g, l') -> go_config g = parse_entry zip "goo/") /\
  (in_files "music/" (namelist zip) = true ->
   forall l m l', Music_parse zip id info l = (Ok m, l') -> mu_config m = parse_entry zip "music/").
Proof.
  intros Hc. assert (Hd : pget_def info "config" (PVStr "") = PVStr "")
    by (rewrite pget_opt_def, Hc; reflexivity).
  split.
  - intros Hf l g l' H. unfold Goo_parse in H.
    apply bind_ok_inv in H as [si [l1 [_ H]]].
    apply bind_ok_inv in H as [c [l2 [Ec H]]]. rewrite Hd in Ec.
    unfold as_str, ret in Ec. injection Ec as <- _.
    apply bind_ok_inv in H as [config [l3 [Ecf H]]].
    unfold ret in H. injection H as <- _. simpl.
    change ("goo/" ++ "")%string with "goo/" in Ecf.
    rewrite Hf in Ecf. unfold zip_parse in Ecf. rewrite Hf in Ecf.
    unfold ret in Ecf. injection Ecf as <- _. reflexivity.
  - intros Hf l m l' H. unfold Music_parse in H.
    apply bind_ok_inv in H as [si [l1 [_ H]]].
    apply bind_ok_inv in H as [inst [l2 [_ H]]].
    apply bind_ok_inv in H as [c [l3 [Ec H]]]. rewrite Hd in Ec.
    unfold as_str, ret in Ec. injection Ec as <- _.
    apply bind_ok_inv in H as [config [l4 [Ecf H]]].
    unfold ret in H. injection H as <- _. simpl.
    change ("music/" ++ "")%string with "music/" in Ecf.
    rewrite Hf in Ecf. unfold zip_parse in Ecf. rewrite Hf in Ecf.
    unfold ret in Ecf. injection Ecf as <- _. reflexivity.
Qed.

End ConfigExtras.


(** * Witnesses of the further properties *)

Module FurtherWitnesses.
Import ODict.

Lemma sep_values_tokens_witness :
  In "Bo"%string (sep_values "Ann, Bo" ","%char) /\ sep_values "Bo" ","%char = ["Bo"%string].
Proof.
  assert (H : In "Bo"%string (sep_values "Ann, Bo" ","%char)) by (vm_compute; tauto).
  exact (conj H (StringExtras.sep_values_tokens _ _ _ H)).
Defined.

Lemma sep_values_app_witness :
  sep_values ("Ann" ++ String ","%char "Bo") ","%char =
  sep_values "Ann" ","%char ++ sep_values "Bo" ","%char.
Proof. exact (StringExtras.sep_values_app "Ann" "Bo" ","%char). Defined.

Lemma desc_parse_labels_folded_witness :
  In ("text"%string, PVStr "Plain walls") (desc_parse style_node) /\
  casefold "text" = "text"%string.
Proof.
  assert (H : In ("text"%string, PVStr "Plain walls") (desc_parse style_node))
    by (vm_compute; tauto).
  exact (conj H (ParserExtras.desc_parse_labels_folded _ _ _ H)).
Defined.

Lemma style_parse_defaults_witness :
  exists sd, Style_parse style_zip "clean" style_node [] = (Ok sd, []) /\
    sd_short_name sd = PVStr "Clean".
Proof.
  destruct (ParserExtras.style_parse_defaults style_zip "clean" style_node "Ann, Bo"
              (PVStr "Clean") "clean" [] ltac:(reflexivity) ltac:(reflexivity)
              ltac:(reflexivity) ltac:(reflexivity)) as [sd [E [_ [Hs _]]]].
  exists sd. split; [exact E|]. apply Hs. right. reflexivity.
Defined.

Lemma style_parse_errors_witness :
  Style_parse empty_zip "clean" noname_node [] = (Err (NoKeyError "name"), []).
Proof.
  exact (proj1 (ParserExtras.style_parse_errors empty_zip "clean" noname_node "Ann"
                  (PVStr "Clean") [] ltac:(reflexivity)) ltac:(reflexivity)).
Defined.

Lemma authors_block_rejected_witness :
  Voice_parse empty_zip "clean" blockauth_node [] = (Err (AttributeError "split"), []).
Proof.
  exact (proj1 (proj2 (ParserExtras.authors_block_rejected blockauth_node [PLeaf "a" "Ann"]
                         ltac:(reflexivity) empty_zip "clean" []))).
Defined.

Lemma skybox_opens_name_witness :
  Skybox_parse sky_zip "sky1" skybox_node [] = (Err (KeyError "Sky"), []).
Proof.
  exact (proj1 (ParserExtras.skybox_opens_name sky_zip "sky1" skybox_node "" "Sky" "sky" []
                  ltac:(reflexivity) ltac:(reflexivity) ltac:(reflexivity)
                  ltac:(discriminate) ltac:(reflexivity)) ltac:(reflexivity)).
Defined.

Lemma short_name_empty_contrast_witness :
  exists g, Goo_parse style_zip "clean" style_node [] = (Ok g, []) /\
    go_short_name g = PVStr "".
Proof.
  exact (proj1 (ParserExtras.short_name_empty_contrast style_zip "clean" style_node "Ann, Bo"
                  (PVStr "Clean") "clean" [] ltac:(reflexivity) ltac:(reflexivity)
                  ltac:(reflexivity) ltac:(reflexivity) ltac:(reflexivity)
                  ltac:(reflexivity))).
Defined.

Lemma parsers_required_keys_witness :
  Voice_parse empty_zip "sky1" skybox_node [] = (Err (NoKeyError "file"), []).
Proof.
  exact (proj1 (ParserExtras.parsers_required_keys empty_zip "sky1" skybox_node ""
                  (PVStr "Sky") [] ltac:(reflexivity) ltac:(reflexivity)) ltac:(reflexivity)).
Defined.

Lemma setup_style_tree_preserves_witness :
  exists idx items', setup_style_tree 5 [ex_A; ex_B] [ex_item] = Some (idx, items') /\
    forall it', In it' items' -> exists it, In it [ex_item] /\ item_id it' = item_id it.
Proof.
  destruct (setup_style_tree 5 [ex_A; ex_B] [ex_item]) as [[idx items']|] eqn:E;
    [|vm_compute in E; discriminate].
  exists idx, items'. split; [reflexivity|].
  intros it' Hin.
  destruct (TreeExtras.setup_style_tree_preserves _ _ _ _ _ E it' Hin) as [it [Hit [Hid _]]].
  exists it. split; assumption.
Defined.

Lemma setup_style_tree_idempotent_witness :
  exists idx items', setup_style_tree 5 [ex_A; ex_B] [ex_item] = Some (idx, items') /\
    setup_style_tree 5 [ex_A; ex_B] items' = Some (idx, items').
Proof.
  destruct (setup_style_tree 5 [ex_A; ex_B] [ex_item]) as [[idx items']|] eqn:E;
    [|vm_compute in E; discriminate].
  exists idx, items'. split; [reflexivity|].
  exact (TreeExtras.setup_style_tree_idempotent _ _ _ _ _ E).
Defined.

Lemma style_index_last_wins_witness :
  exists pre post, [ex_A; ex_B] = pre ++ ex_B :: post /\ sty_id ex_B = "B"%string /\
    Forall (fun s' => sty_id s' <> "B"%string) post.
Proof.
  exact (proj1 (TreeExtras.style_index_last_wins [ex_A; ex_B] "B" ex_B) ltac:(reflexivity)).
Defined.

Lemma setup_style_tree_terminates_witness :
  exists fuel r, setup_style_tree fuel [ex_A; ex_B] [ex_item] = Some r.
Proof.
  apply (TreeExtras.setup_style_tree_terminates [ex_A; ex_B] [ex_item]
           (fun k => if String.eqb k "B" then 1 else 0)).
  intros s b Hs Hb.
  apply ODictFacts.get_In in Hs. vm_compute in Hs.
  destruct Hs as [H | [H | []]]; injection H as Hk Hs; subst s;
    vm_compute in Hb; [discriminate|].
  injection Hb as <-. vm_compute. lia.
Defined.

Lemma parse_package_count_witness :
  exists ld n l', parse_package reg_dup init_loader empty_zip (pk_info pkg_dup) "base.zip"
                    "base" "base" [] = (Ok (ld, n), l') /\ n = 2.
Proof.
  destruct (parse_package reg_dup init_loader empty_zip (pk_info pkg_dup) "base.zip"
              "base" "base" []) as [[[ld n]|e] l'] eqn:E; [|vm_compute in E; discriminate].
  exists ld, n, l'. split; [reflexivity|].
  rewrite (LoadExtras.parse_package_count reg_dup init_loader empty_zip (pk_info pkg_dup)
             "base.zip" "base" "base" [] [] ld n l' ltac:(reflexivity) E).
  reflexivity.
Defined.

Lemma parse_package_missing_prereq_witness :
  fst (parse_package reg_dup init_loader empty_zip pre_info "ext.zip" "ext" "ext" []) =
  Ok (init_loader, 0).
Proof.
  rewrite (LoadExtras.parse_package_missing_prereq reg_dup init_loader empty_zip pre_info
             "ext.zip" "ext" "ext" (PTree "Prerequisites" [PLeaf "Package" "core"]) []
             (PLeaf "Package" "core") [] "core" [] ltac:(reflexivity) ltac:(reflexivity)
             (Forall_nil _) ltac:(reflexivity) ltac:(reflexivity)).
  reflexivity.
Defined.

Lemma collect_all_provenance_witness :
  get "sky1" (obj ld_dup CSkybox) = Some (new_entry empty_zip "base" "base" sky_original) /\
  provenance reg_dup CSkybox "sky1" (new_entry empty_zip "base" "base" sky_original).
Proof.
  assert (E : collect_all reg_dup init_loader [] =
              (Ok (ld_dup, n_of (collect_all reg_dup init_loader [])),
               snd (collect_all reg_dup init_loader []))) by (vm_compute; reflexivity).
  assert (Hg : get "sky1" (obj ld_dup CSkybox) =
               Some (new_entry empty_zip "base" "base" sky_original)) by (vm_compute; reflexivity).
  split; [exact Hg|].
  destruct (LoadExtras.collect_all_provenance _ _ _ _ _ _ E _ _ _ Hg) as [H | H];
    [vm_compute in H; discriminate | exact H].
Defined.

Lemma collect_all_override_shape_witness :
  exists z node id, obj_override ld_both CSkybox = OvList [(z, node)] /\
    mem id (obj ld_both CSkybox) = true.
Proof.
  assert (E : collect_all reg_both init_loader [] =
              (Ok (ld_both, n_of (collect_all reg_both init_loader [])),
               snd (collect_all reg_both init_loader []))) by (vm_compute; reflexivity).
  destruct (LoadExtras.collect_all_override_shape _ _ _ _ _ E CSkybox) as [H | H];
    [vm_compute in H; discriminate|].
  destruct H as [z [node [id [H1 [_ [_ H4]]]]]].
  exists z, node, id. split; assumption.
Defined.

Lemma load_objects_override_list_fails_witness :
  exists err l', load_objects ld_both [] = (Err err, l').
Proof.
  exact (LoadExtras.load_objects_override_list_fails ld_both CSkybox [(empty_zip, sky_override)]
           ("sky1"%string, new_entry empty_zip "base" "base" sky_original) []
           ltac:(vm_compute; reflexivity) ltac:(vm_compute; left; reflexivity)).
Defined.

Lemma load_after_collect_witness :
  exists data l3, load_objects ld_dup [] = (Ok data, l3) /\ map fst data = obj_types.
Proof.
  assert (E : collect_all reg_dup init_loader [] =
              (Ok (ld_dup, n_of (collect_all reg_dup init_loader [])),
               snd (collect_all reg_dup init_loader []))) by (vm_compute; reflexivity).
  destruct (load_objects ld_dup []) as [[data|e] l3] eqn:E2; [|vm_compute in E2; discriminate].
  exists data, l3. split; [reflexivity|].
  exact (proj1 (proj2 (LoadExtras.load_after_collect _ _ _ _ _ _ _ _ E E2))).
Defined.

Lemma item_parse_styles_loaded_witness :
  exists it l', Item_parse item_zip "widget" item_info [] = (Ok it, l') /\
    forall v, In v (versions it) -> forall k x, get k (v_styles v) = Some x -> exists f, x = VFolder f.
Proof.
  destruct (Item_parse item_zip "widget" item_info []) as [[it|e] l'] eqn:E;
    [|vm_compute in E; discriminate].
  exists it, l'. split; [reflexivity|].
  exact (ItemExtras.item_parse_styles_loaded _ _ _ _ _ _ E).
Defined.

Lemma item_parse_files_witness :
  in_files "items/f1/properties.txt" (namelist item_zip) = true /\
  in_files "items/f1/editoritems.txt" (namelist item_zip) = true.
Proof.
  destruct (Item_parse item_zip "widget" item_info []) as [[it|e] l'] eqn:E;
    [|vm_compute in E; discriminate].
  exact (ItemExtras.item_parse_files _ _ _ _ _ _ E
           (PTree "version" [PLeaf "name" "v1"; PTree "styles" [PLeaf "A" "f1"]])
           (PTree "styles" [PLeaf "A" "f1"]) (PLeaf "A" "f1") "f1"
           ltac:(vm_compute; tauto) ltac:(vm_compute; tauto) ltac:(vm_compute; tauto)
           ltac:(reflexivity)).
Defined.

Lemma item_parse_versions_meta_witness :
  exists it l', Item_parse item_zip "widget" item_info [] = (Ok it, l') /\
    map ver_meta (versions it) = [(PVStr "v1", false, false); (PVStr "v2", false, false)].
Proof.
  destruct (Item_parse item_zip "widget" item_info []) as [[it|e] l'] eqn:E;
    [|vm_compute in E; discriminate].
  exists it, l'. split; [reflexivity|].
  rewrite (ItemExtras.item_parse_versions_meta _ _ _ _ _ _ E). reflexivity.
Defined.

Lemma item_parse_unstyled_last_witness :
  no_style (PTree "version" [PLeaf "name" "v1"]).
Proof.
  destruct (Item_parse empty_zip "plain" item_plain []) as [[it|e] l'] eqn:E;
    [|vm_compute in E; discriminate].
  assert (Hlast : no_style (PTree "version" [PLeaf "name" "v2"])).
  { intros sl Hsl. vm_compute in Hsl. destruct Hsl. }
  exact (DefStyleExtras.item_parse_unstyled_last empty_zip "plain" item_plain [] it l'
           [PTree "version" [PLeaf "name" "v1"]] (PTree "version" [PLeaf "name" "v2"])
           ltac:(reflexivity) Hlast E _ (or_introl eq_refl)).
Defined.

Lemma register_all_zips_witness :
  exists zips pk l', register_all "/pkg" listing [] = (Ok (zips, pk), l') /\
    zips = [info_zip "p1"; info_zip "p1"; empty_zip].
Proof.
  destruct (register_all "/pkg" listing []) as [[[zips pk]|e] l'] eqn:E;
    [|vm_compute in E; discriminate].
  exists zips, pk, l'. split; [reflexivity|].
  rewrite (RegisterExtras.register_all_zips _ _ _ _ _ _ E). reflexivity.
Defined.

Lemma register_all_last_wins_witness :
  exists zips pk l', register_all "/pkg" listing [] = (Ok (zips, pk), l') /\
    exists r, get "p1" pk = Some r /\ re_name r = "/pkg/b.zip"%string.
Proof.
  destruct (register_all "/pkg" listing []) as [[[zips pk]|e] l'] eqn:E;
    [|vm_compute in E; discriminate].
  exists zips, pk, l'. split; [reflexivity|].
  destruct (reg_entry "/pkg" (DEFile "b.zip" (info_zip "p1"))) as [r|] eqn:Er;
    [|vm_compute in Er; discriminate].
  exists r. split.
  - apply (proj2 (RegisterExtras.register_all_last_wins _ _ _ _ _ _ E "p1" r)).
    exists [DEFile "a.zip" (info_zip "p1"); DEDir "d.zip"; DEFile "notes.txt" (info_zip "p2")],
      (DEFile "b.zip" (info_zip "p1")), [DEFile "c.zip" empty_zip].
    split; [reflexivity|]. split; [exact Er|]. split.
    + vm_compute in Er. injection Er as <-. reflexivity.
    + constructor; [|constructor]. intros r' Hr'. vm_compute in Hr'. discriminate.
  - vm_compute in Er. injection Er as <-. reflexivity.
Defined.

Lemma register_all_bad_id_witness :
  exists err l', register_all "/pkg" [DEFile "a.zip" (info_zip "p1"); DEFile "x.zip" noid_zip] []
                 = (Err err, l') /\ (err = NoKeyError "ID" \/ err = TypeError).
Proof.
  assert (Hpre : Forall (fun x => reg_bad "/pkg" x = false) [DEFile "a.zip" (info_zip "p1")])
    by (constructor; [reflexivity | constructor]).
  exact (RegisterExtras.register_all_bad_id "/pkg" [DEFile "a.zip" (info_zip "p1")]
           (DEFile "x.zip" noid_zip) [] [] Hpre ltac:(reflexivity)).
Defined.

Lemma extract_resources_plan_witness :
  fst (extract_resources Windows [res_zip] []) =
    Ok [(res_zip, "resources/BEE2/a.png"%string); (res_zip, "Resources/bee2/b.png"%string);
        (res_zip, "resources/instances/c.vmf"%string)] /\
  fst (extract_resources Posix [res_zip] []) =
    Ok [(res_zip, "resources/BEE2/a.png"%string); (res_zip, "resources/instances/c.vmf"%string)].
Proof.
  rewrite (proj1 (ResExtras.extract_resources_plan Windows [res_zip] [])),
          (proj1 (ResExtras.extract_resources_plan Posix [res_zip] [])).
  split; reflexivity.
Defined.

Lemma config_default_folder_witness :
  exists g l', Goo_parse goo_zip "g" goo_plain [] = (Ok g, l') /\ go_config g = [PLeaf "x" "y"].
Proof.
  destruct (Goo_parse goo_zip "g" goo_plain []) as [[g|e] l'] eqn:E;
    [|vm_compute in E; discriminate].
  exists g, l'. split; [reflexivity|].
  exact (proj1 (ConfigExtras.config_default_folder goo_zip "g" goo_plain ltac:(reflexivity))
           ltac:(reflexivity) [] g l' E).
Defined.

End FurtherWitnesses.
